(** * The manifest manager of kopia (package [manifest])

    A shallow embedding of [manifest_manager.go]: the in-memory entry
    index (a Go [map[string]*manifestEntry]), the list of pending entries,
    the list of known block identifiers, and the operations that load,
    merge, flush and compact them through a block manager. *)

From Stdlib Require Import ZArith Strings.Byte Ascii String Sorted Permutation.
From stdpp Require Import base gmap strings list fin_maps sorting.

Local Open Scope string_scope.
Local Open Scope Z_scope.
Local Open Scope list_scope.

(** ** Data model *)

(** [block.ContentID] is a Go string type. *)
Abbreviation ContentID := string (only parsing).

(** A [time.Time] in UTC, as the number of nanoseconds of its instant. *)
Abbreviation Time := Z (only parsing).

Definition time_After (t u : Time) : bool := u <? t.
Definition time_Before (t u : Time) : bool := t <? u.

(** Modelled from the spec: the struct [manifestEntry], declared in another
    file of the package.  Its fields are the ones the manager reads and
    writes, the attributes of a Manifest Entry.  A nil [Labels] map reads
    like the empty map, a nil [Content] like the empty slice. *)
Record manifestEntry := mkEntry {
  ID : string;
  ModTime : Time;
  Labels : gmap string string;
  Deleted : bool;
  Content : list byte
}.

(** Modelled from the spec: the struct [manifest], declared in another file
    of the package: the document stored in one block, an ordered sequence of
    entries. *)
Record manifest := mkManifest { Entries : list manifestEntry }.

(** Modelled from the spec: the struct [EntryMetadata], declared in another
    file of the package, with the four fields the manager fills in. *)
Record EntryMetadata := mkMetadata {
  md_ID : string;
  md_Length : nat;
  md_Labels : gmap string string;
  md_ModTime : Time
}.

(** The three mutable fields of [Manager]; the block manager [b] is a shared
    collaborator and lives in the world state below. *)
Record Manager := mkManager {
  entries : gmap string manifestEntry;
  blockIDs : list ContentID;
  pendingEntries : list manifestEntry
}.

Definition manifestBlockPrefix : string := "m".
Definition autoCompactionBlockCount : nat := 16.

(** ** The entry index *)

(** [a[k]] on a Go map of strings: the empty string when [k] is absent. *)
Definition label_at (a : gmap string string) (k : string) : string :=
  default "" (a !! k).

(** Go leaves the iteration order of [range] over a map unspecified; the
    model walks the map in the order of [map_to_list], and the results below
    that depend on an order are stated up to permutation. *)
Definition range_values {A} (m : gmap string A) : list A :=
  (map_to_list m).*2.

Definition mergeEntry (idx : gmap string manifestEntry) (e : manifestEntry)
  : gmap string manifestEntry :=
  match idx !! ID e with
  | None => <[ID e := e]> idx
  | Some prev =>
      if time_After (ModTime e) (ModTime prev) then <[ID e := e]> idx else idx
  end.

(** The two nested loops of [loadManifestBlocks] that merge every entry of
    every manifest. *)
Definition mergeEntries (idx : gmap string manifestEntry)
    (es : list manifestEntry) : gmap string manifestEntry :=
  foldl mergeEntry idx es.

Definition mergeManifests (idx : gmap string manifestEntry)
    (mans : list manifest) : gmap string manifestEntry :=
  foldl (fun i man => mergeEntries i (Entries man)) idx mans.

(** The last loop of [loadManifestBlocks]: entries marked deleted are
    removed from the map. *)
Definition removeDeleted (idx : gmap string manifestEntry)
  : gmap string manifestEntry :=
  filter (fun kv => Deleted kv.2 = false) idx.

(** The index holds no tombstone. *)
Definition index_live (idx : gmap string manifestEntry) : Prop :=
  map_Forall (fun _ e => Deleted e = false) idx.

(** No two different entries share both identifier and modification time. *)
Definition tie_free (es : list manifestEntry) : Prop :=
  forall a b, a ∈ es -> b ∈ es -> ID a = ID b -> ModTime a = ModTime b -> a = b.

Definition all_entries (mans : list manifest) : list manifestEntry :=
  concat (Entries <$> mans).

(** ** Errors *)

(** A Go [error] value: [ErrNotFound], an error reported by a collaborator
    (the block manager, [encoding/json], [compress/gzip], [crypto/rand]), a
    [fmt.Errorf] of a plain message, or a [fmt.Errorf] with its format
    string, its [%q] arguments and the error it wraps with [%v]. *)
Inductive error :=
| ErrNotFound
| ErrExternal (msg : string)
| ErrMessage (msg : string)
| Errorf (format : string) (args : list string) (cause : error).

Inductive result (A : Type) :=
| Ok (a : A)
| Err (e : error).
Arguments Ok {A} a.
Arguments Err {A} e.

Definition is_Ok {A} (r : result A) : bool :=
  match r with Ok _ => true | Err _ => false end.

(** ** Collaborators *)

(** Modelled from the spec: [block.Info], as returned by [ListBlocks]; the
    manager reads [BlockID] only. *)
Record Info := mkInfo {
  BlockID : ContentID;
  Length : nat;
  Timestamp : Time
}.

(** Modelled from the spec: the block manager [*block.Manager], whose code
    is outside the package.  Each method takes the state of the store and
    returns its result with the new state; a cancelled context or an I/O
    failure is an [Err] result.  [WriteBlock] is content-addressed and
    returns an identifier inside the namespace of the prefix it was given. *)
Class BlockManager (S : Type) := {
  WriteBlock : list byte -> string -> S -> result ContentID * S;
  GetBlock : ContentID -> S -> result (list byte) * S;
  ListBlocks : string -> S -> result (list Info) * S;
  DeleteBlock : ContentID -> S -> result unit * S;
  FlushBlocks : S -> result unit * S;
  WriteBlock_prefix : forall data prefix s id s',
    WriteBlock data prefix s = (Ok id, s') -> exists h, id = prefix +:+ h
}.

(** The calls of [encoding/json] and [compress/gzip] on manifest documents:
    [json.NewEncoder(gz).Encode], [gz.Flush], [gz.Close] (which yields the
    bytes of the buffer), [json.Unmarshal], [gzip.NewReader] and
    [json.NewDecoder(gz).Decode]. *)
Class Codec := {
  json_Encode : manifest -> result (list byte);
  gzip_Flush : list byte -> result unit;
  gzip_Close : list byte -> result (list byte);
  json_Unmarshal : list byte -> result manifest;
  gzip_NewReader : list byte -> result (list byte);
  json_Decode : list byte -> result manifest
}.

(** A call received by the block manager. *)
Inductive Call :=
| CallWriteBlock (data : list byte) (prefix : string)
| CallGetBlock (id : ContentID)
| CallListBlocks (prefix : string)
| CallDeleteBlock (id : ContentID)
| CallFlush.

(** ** The state and its monad *)

(** The manager, the block manager it points to, and the calls the block
    manager has received so far. *)
Record St (S : Type) := mkSt {
  mgr : Manager;
  store : S;
  calls : list Call
}.
Arguments mkSt {S} mgr store calls.
Arguments mgr {S} s.
Arguments store {S} s.
Arguments calls {S} s.

(** A Go method of [Manager] returning [(A, error)]: it may change the state
    and fail; a failure does not undo the changes made before it. *)
Definition Op (S A : Type) : Type := St S -> result A * St S.

Definition ret {S A} (a : A) : Op S A := fun st => (Ok a, st).

Definition fail {S A} (e : error) : Op S A := fun st => (Err e, st).

Definition bind {S A B} (c : Op S A) (k : A -> Op S B) : Op S B :=
  fun st =>
    match c st with
    | (Ok a, st') => k a st'
    | (Err e, st') => (Err e, st')
    end.

Notation "'let*' x := c 'in' k" := (bind c (fun x => k))
  (at level 10, x name, c at level 100, k at level 200).

(** [if err != nil { return fmt.Errorf(format, args..., err) }] *)
Definition wrap {S A} (format : string) (args : list string) (c : Op S A)
  : Op S A :=
  fun st =>
    match c st with
    | (Ok a, st') => (Ok a, st')
    | (Err e, st') => (Err (Errorf format args e), st')
    end.

Definition liftR {S A} (r : result A) : Op S A := fun st => (r, st).

Definition get_mgr {S} : Op S Manager := fun st => (Ok (mgr st), st).

Definition modify {S} (f : Manager -> Manager) : Op S unit :=
  fun st => (Ok tt, mkSt (f (mgr st)) (store st) (calls st)).

Definition set_entries (idx : gmap string manifestEntry) (m : Manager) :=
  mkManager idx (blockIDs m) (pendingEntries m).
Definition set_blockIDs (ids : list ContentID) (m : Manager) :=
  mkManager (entries m) ids (pendingEntries m).
Definition set_pendingEntries (es : list manifestEntry) (m : Manager) :=
  mkManager (entries m) (blockIDs m) es.

(** A call of a block-manager method: its result, the new state of the
    store, and the call recorded. *)
Definition call {S A} (c : Call) (f : S -> result A * S) : Op S A :=
  fun st =>
    let '(r, s') := f (store st) in
    (r, mkSt (mgr st) s' (calls st ++ [c])).

(** ** Pure helpers *)

Definition copyLabels (m : gmap string string) : gmap string string :=
  map_fold (fun k v r => <[k := v]> r) ∅ m.

Definition cloneEntryMetadata (e : manifestEntry) : EntryMetadata :=
  {| md_ID := ID e;
     md_Labels := copyLabels (Labels e);
     md_Length := length (Content e);
     md_ModTime := ModTime e |}.

(** [matchesLabels a b]: every entry of [b] is read back from [a]. *)
Definition matchesLabels (a b : gmap string string) : bool :=
  forallb (fun kv => bool_decide (label_at a kv.1 = kv.2)) (map_to_list b).

(** [sort.Slice] with the comparison [less], as an insertion sort.  The Go
    sort is not stable; the results below use only that the outcome is a
    rearrangement of the slice in ascending order. *)
Fixpoint insert_by {A} (less : A -> A -> bool) (x : A) (l : list A) : list A :=
  match l with
  | [] => [x]
  | y :: l' => if less y x then y :: insert_by less x l' else x :: y :: l'
  end.

Definition sort_Slice {A} (less : A -> A -> bool) (l : list A) : list A :=
  foldr (insert_by less) [] l.

(** [blk[0] == c], read only where [blk] is not empty. *)
Definition byte_at0_is (c : byte) (blk : list byte) : bool :=
  match blk with
  | b0 :: _ => Byte.eqb b0 c
  | [] => false
  end.

Definition hex_digit (n : N) : ascii :=
  match String.get (N.to_nat n) "0123456789abcdef" with
  | Some c => c
  | None => "0"%char
  end.

(** [hex.EncodeToString] *)
Fixpoint hex_EncodeToString (bs : list byte) : string :=
  match bs with
  | [] => ""
  | b :: bs' =>
      let n := Byte.to_N b in
      String (hex_digit (n / 16)%N)
        (String (hex_digit (n mod 16)%N) (hex_EncodeToString bs'))
  end.

(** The order in which the workers of [loadBlocksInParallel] complete:
    [schedule picks l] takes, for each number [k] of [picks], the element at
    position [k mod length] of what is left of [l], then the rest in
    order.  It is always a rearrangement of [l]. *)
Fixpoint schedule {A} (picks : list nat) (l : list A) : list A :=
  match picks with
  | [] => l
  | k :: picks' =>
      let i := (k `mod` length l)%nat in
      match l !! i with
      | Some x => x :: schedule picks' (take i l ++ drop (Datatypes.S i) l)
      | None => l
      end
  end.

(** ** The operations of [Manager] *)

(** What [Put] obtains from its environment: the outcome of [rand.Read] on
    16 bytes, of [json.Marshal] on the payload, and of [time.Now]. *)
Record PutEnv := mkPutEnv {
  rand_Read : result (list byte);
  json_Marshal : result (list byte);
  time_Now : Time
}.

Section Operations.
Context {S : Type} {bm : BlockManager S} {codec : Codec}.

Definition Put (labels : gmap string string) (env : PutEnv) : Op S string :=
  if decide (label_at labels "type" = "") then
    fail (ErrMessage "'type' label is required")
  else
    let* random :=
      wrap "can't initialize randomness: %v" [] (liftR (rand_Read env)) in
    let* b := liftR (json_Marshal env) in
    let e := {| ID := hex_EncodeToString random;
                ModTime := time_Now env;
                Labels := copyLabels labels;
                Deleted := false;
                Content := b |} in
    let* _ := modify (fun m =>
      mkManager (<[ID e := e]> (entries m)) (blockIDs m)
                (pendingEntries m ++ [e])) in
    ret (ID e).

Definition GetMetadata (id : string) : Op S EntryMetadata :=
  let* m := get_mgr in
  match entries m !! id with
  | None => fail ErrNotFound
  | Some e =>
      ret {| md_ID := id;
             md_ModTime := ModTime e;
             md_Length := length (Content e);
             md_Labels := copyLabels (Labels e) |}
  end.

Definition GetRaw (id : string) : Op S (list byte) :=
  let* m := get_mgr in
  match entries m !! id with
  | None => fail ErrNotFound
  | Some e => ret (Content e)
  end.

(** [Get]: [unmarshal] is [json.Unmarshal] into the caller's object. *)
Definition Get (id : string) (unmarshal : list byte -> result unit)
  : Op S unit :=
  let* b := GetRaw id in
  wrap "unable to unmashal %q: %v" [id] (liftR (unmarshal b)).

Definition Find (m : Manager) (labels : gmap string string)
  : list EntryMetadata :=
  let matches :=
    cloneEntryMetadata <$>
      filter (fun e => matchesLabels (Labels e) labels = true)
             (range_values (entries m)) in
  sort_Slice (fun x y => time_Before (md_ModTime x) (md_ModTime y)) matches.

Definition flushPendingEntriesLocked : Op S ContentID :=
  let* m := get_mgr in
  match pendingEntries m with
  | [] => ret ""
  | _ :: _ =>
      let man := {| Entries := pendingEntries m |} in
      let* js := wrap "unable to marshal: %v" [] (liftR (json_Encode man)) in
      let* _ := wrap "unable to flush: %v" [] (liftR (gzip_Flush js)) in
      let* buf := wrap "unable to close: %v" [] (liftR (gzip_Close js)) in
      let* blockID :=
        call (CallWriteBlock buf manifestBlockPrefix)
             (WriteBlock buf manifestBlockPrefix) in
      let* _ := modify (set_pendingEntries []) in
      ret blockID
  end.

Definition Flush : Op S unit :=
  let* blockID := flushPendingEntriesLocked in
  if decide (blockID = "") then ret tt
  else modify (fun m => set_blockIDs (blockIDs m ++ [blockID]) m).

Definition Delete (id : string) (now : Time) : Op S unit :=
  let* m := get_mgr in
  match entries m !! id with
  | None => ret tt
  | Some _ =>
      modify (fun m =>
        mkManager (delete id (entries m)) (blockIDs m)
          (pendingEntries m ++
             [{| ID := id; ModTime := now; Labels := ∅;
                 Deleted := true; Content := [] |}]))
  end.

Definition loadManifestBlock (blockID : ContentID) : Op S manifest :=
  let* blk :=
    wrap "unable to read block %q: %v" [blockID]
         (call (CallGetBlock blockID) (GetBlock blockID)) in
  if (2 <? length blk)%nat && byte_at0_is "{" blk then
    wrap "unable to parse block %q: %v" [blockID] (liftR (json_Unmarshal blk))
  else
    let* gz :=
      wrap "unable to unpack block %q: %v" [blockID]
           (liftR (gzip_NewReader blk)) in
    wrap "unable to parse block %q: %v" [blockID] (liftR (json_Decode gz)).

(** The workers: every block identifier is processed, whatever the outcome
    of the others; each outcome goes to the channel of errors or to the
    channel of manifests. *)
Fixpoint loadEach (ids : list ContentID) (st : St S)
  : list (result manifest) * St S :=
  match ids with
  | [] => ([], st)
  | id :: ids' =>
      let '(r, st1) := loadManifestBlock id st in
      let '(rs, st2) := loadEach ids' st1 in
      (r :: rs, st2)
  end.

Definition channel_errors {A} (rs : list (result A)) : list error :=
  omap (fun r => match r with Err e => Some e | Ok _ => None end) rs.

Definition channel_values {A} (rs : list (result A)) : list A :=
  omap (fun r => match r with Ok a => Some a | Err _ => None end) rs.

Definition loadBlocksInParallel (sched : list nat) (blocks : list Info)
  : Op S (list manifest) :=
  fun st =>
    let '(rs, st') := loadEach (schedule sched (BlockID <$> blocks)) st in
    match channel_errors rs with
    | err :: _ => (Err err, st')
    | [] => (Ok (channel_values rs), st')
    end.

Definition loadManifestBlocks (sched : list nat) (blocks : list Info)
  : Op S unit :=
  let* _ := modify (fun m =>
    set_blockIDs (blockIDs m ++ (BlockID <$> blocks)) m) in
  let* manifests := loadBlocksInParallel sched blocks in
  let* _ := modify (fun m =>
    set_entries (mergeManifests (entries m) manifests) m) in
  modify (fun m => set_entries (removeDeleted (entries m)) m).

(** The loop of [compactLocked] over the known blocks. *)
Fixpoint deleteBlocksExcept (blockID : ContentID) (ids : list ContentID)
  : Op S unit :=
  match ids with
  | [] => ret tt
  | b :: ids' =>
      if decide (b = blockID) then deleteBlocksExcept blockID ids'
      else
        let* _ :=
          wrap "unable to delete block %q: %v" [b]
               (call (CallDeleteBlock b) (DeleteBlock b)) in
        deleteBlocksExcept blockID ids'
  end.

Definition compactLocked : Op S unit :=
  let* m := get_mgr in
  if decide (length (blockIDs m) = 1%nat ∧ length (pendingEntries m) = 0%nat)
  then ret tt
  else
    let* _ := modify (fun m =>
      set_pendingEntries (pendingEntries m ++ range_values (entries m)) m) in
    let* blockID := flushPendingEntriesLocked in
    let* _ := modify (fun m => set_blockIDs (blockIDs m ++ [blockID]) m) in
    let* m := get_mgr in
    let* _ := deleteBlocksExcept blockID (blockIDs m) in
    modify (set_blockIDs [blockID]).

Definition Compact : Op S unit := compactLocked.

Definition load (sched : list nat) : Op S unit :=
  let* _ := Flush in
  let* _ := modify (set_entries ∅) in
  let* blocks :=
    wrap "unable to list manifest blocks: %v" []
         (call (CallListBlocks manifestBlockPrefix)
               (ListBlocks manifestBlockPrefix)) in
  let* _ :=
    wrap "unable to load manifest blocks: %v" []
         (loadManifestBlocks sched blocks) in
  if (autoCompactionBlockCount <? length blocks)%nat then
    let* _ :=
      wrap "unable to compact manifest blocks: %v" [] compactLocked in
    wrap "unable to flush blocks after auto-compaction: %v" []
         (call CallFlush FlushBlocks)
  else ret tt.

(** [NewManager]: [load] on a manager with an empty index.  When the result
    is an error the caller receives no manager. *)
Definition NewManager (sched : list nat) (b : S) : result unit * St S :=
  load sched (mkSt (mkManager ∅ [] []) b []).

(** ** The public operations as transitions *)

Inductive op :=
| OpPut (labels : gmap string string) (env : PutEnv)
| OpGet (id : string) (unmarshal : list byte -> result unit)
| OpGetMetadata (id : string)
| OpGetRaw (id : string)
| OpFind (labels : gmap string string)
| OpDelete (id : string) (now : Time)
| OpFlush
| OpCompact.

Definition run_op (o : op) (st : St S) : St S :=
  match o with
  | OpPut labels env => (Put labels env st).2
  | OpGet id unmarshal => (Get id unmarshal st).2
  | OpGetMetadata id => (GetMetadata id st).2
  | OpGetRaw id => (GetRaw id st).2
  | OpFind _ => st
  | OpDelete id now => (Delete id now st).2
  | OpFlush => (Flush st).2
  | OpCompact => (Compact st).2
  end.

(** The states a caller can observe: after a successful [NewManager], after
    any public operation, and after any change of the block store made by
    others. *)
Inductive reachable : St S -> Prop :=
| reachable_new sched b st :
    NewManager sched b = (Ok tt, st) -> reachable st
| reachable_op o st :
    reachable st -> reachable (run_op o st)
| reachable_store st b' cs :
    reachable st -> reachable (mkSt (mgr st) b' cs).
End Operations.

(** ** An in-memory block manager and a stub codec

    Concrete collaborators on which the operations can be run: a store kept
    in memory whose calls start failing once a budget of calls is spent (a
    context cancelled at that point), and a codec that knows the documents
    of a table. *)

Record MemStore := mkMem {
  mem_blocks : list (ContentID * list byte);
  mem_budget : option nat
}.

(** One call against the budget: [None] when the context is cancelled. *)
Definition mem_tick (s : MemStore) : option MemStore :=
  match mem_budget s with
  | None => Some s
  | Some O => None
  | Some (Datatypes.S n) => Some (mkMem (mem_blocks s) (Some n))
  end.

Definition mem_cancelled : error := ErrExternal "context canceled".

Fixpoint mem_find (id : ContentID) (l : list (ContentID * list byte))
  : option (list byte) :=
  match l with
  | [] => None
  | (k, v) :: l' => if String.eqb k id then Some v else mem_find id l'
  end.

Definition mem_WriteBlock (data : list byte) (prefix : string) (s : MemStore)
  : result ContentID * MemStore :=
  match mem_tick s with
  | None => (Err mem_cancelled, s)
  | Some s1 =>
      let id := prefix +:+ hex_EncodeToString data in
      match mem_find id (mem_blocks s1) with
      | Some _ => (Ok id, s1)
      | None => (Ok id, mkMem (mem_blocks s1 ++ [(id, data)]) (mem_budget s1))
      end
  end.

Definition mem_GetBlock (id : ContentID) (s : MemStore)
  : result (list byte) * MemStore :=
  match mem_tick s with
  | None => (Err mem_cancelled, s)
  | Some s1 =>
      match mem_find id (mem_blocks s1) with
      | Some data => (Ok data, s1)
      | None => (Err (ErrExternal "block not found"), s1)
      end
  end.

Definition mem_ListBlocks (prefix : string) (s : MemStore)
  : result (list Info) * MemStore :=
  match mem_tick s with
  | None => (Err mem_cancelled, s)
  | Some s1 =>
      (Ok ((fun kv => mkInfo kv.1 (length kv.2) 0) <$>
             filter (fun kv => String.prefix prefix kv.1 = true)
                    (mem_blocks s1)), s1)
  end.

Definition mem_DeleteBlock (id : ContentID) (s : MemStore)
  : result unit * MemStore :=
  match mem_tick s with
  | None => (Err mem_cancelled, s)
  | Some s1 =>
      (Ok tt, mkMem (filter (fun kv => String.eqb kv.1 id = false)
                            (mem_blocks s1)) (mem_budget s1))
  end.

Definition mem_FlushBlocks (s : MemStore) : result unit * MemStore :=
  match mem_tick s with
  | None => (Err mem_cancelled, s)
  | Some s1 => (Ok tt, s1)
  end.

#[export] Instance MemStore_BlockManager : BlockManager MemStore.
Proof.
  refine {| WriteBlock := mem_WriteBlock;
            GetBlock := mem_GetBlock;
            ListBlocks := mem_ListBlocks;
            DeleteBlock := mem_DeleteBlock;
            FlushBlocks := mem_FlushBlocks |}.
  intros data prefix s id s'. unfold mem_WriteBlock.
  destruct (mem_tick s) as [s1|]; [|discriminate].
  destruct (mem_find _ _); intros [= <- _]; eauto.
Defined.

Fixpoint bytes_eqb (x y : list byte) : bool :=
  match x, y with
  | [], [] => true
  | a :: x', b :: y' => Byte.eqb a b && bytes_eqb x' y'
  | _, _ => false
  end.

Fixpoint doc_find (b : list byte) (docs : list (list byte * manifest))
  : option manifest :=
  match docs with
  | [] => None
  | (k, man) :: docs' => if bytes_eqb k b then Some man else doc_find b docs'
  end.

Definition stub_parse (docs : list (list byte * manifest)) (b : list byte)
  : result manifest :=
  match doc_find b docs with
  | Some man => Ok man
  | None => Err (ErrExternal "invalid character")
  end.

(** The stub writes a document as the identifiers of its entries between
    braces, and a gzip stream as the two bytes of the gzip header followed by
    the document; it reads a gzip stream by taking that header off, and a
    document by looking it up in the table [docs]. *)
Definition StubCodec (docs : list (list byte * manifest)) : Codec :=
  {| json_Encode := fun man =>
       Ok (list_byte_of_string
             ("{" +:+ String.concat "," (ID <$> Entries man) +:+ "}"));
     gzip_Flush := fun _ => Ok tt;
     gzip_Close := fun js => Ok ("031"%byte :: "139"%byte :: js);
     json_Unmarshal := stub_parse docs;
     gzip_NewReader := fun blk =>
       match blk with
       | "031"%byte :: "139"%byte :: rest => Ok rest
       | _ => Err (ErrExternal "gzip: invalid header")
       end;
     json_Decode := stub_parse docs |}.

(** ** Vocabulary of the statements *)

(** Ascending order of a key. *)
Definition le_by {A} (key : A -> Z) (x y : A) : Prop := key x <= key y.

(** Ascending order of modification time. *)
Definition md_le : EntryMetadata -> EntryMetadata -> Prop := le_by md_ModTime.

(** The manager once [compactLocked] has appended the entries of the index
    to the pending entries, before it flushes them. *)
Definition compact_stage {S} (st : St S) : St S :=
  mkSt (set_pendingEntries
          (pendingEntries (mgr st) ++ range_values (entries (mgr st)))
          (mgr st))
       (store st) (calls st).

(** The test with which [compactLocked] returns at once. *)
Definition already_compact (m : Manager) : Prop :=
  length (blockIDs m) = 1%nat /\ length (pendingEntries m) = 0%nat.

(** The test with which [loadManifestBlock] chooses [json.Unmarshal]. *)
Definition uncompressed_format (blk : list byte) : bool :=
  (2 <? length blk)%nat && byte_at0_is "{" blk.

(** The error names the block: it is a [fmt.Errorf] whose [%q] argument is
    the identifier. *)
Definition names_block (e : error) (blockID : ContentID) : Prop :=
  exists format cause, e = Errorf format [blockID] cause.

(** The errors with which [load] reports a failure of its automatic
    compaction. *)
Definition auto_compaction_error (e : error) : Prop :=
  exists cause,
    e = Errorf "unable to compact manifest blocks: %v" [] cause
    \/ e = Errorf "unable to flush blocks after auto-compaction: %v" [] cause.

(** ** Sample states and entries *)

Definition entry_v1 : manifestEntry :=
  mkEntry "ab" 10 {[ "type" := "snap" ]} false [].
Definition entry_v2 : manifestEntry :=
  mkEntry "ab" 20 {[ "type" := "snap" ]} false ["{"%byte; "}"%byte].
Definition tombstone_v1 : manifestEntry :=
  mkEntry "ab" 10 ∅ true [].

(** A manager with one live entry and one known block. *)
Definition manager_one : Manager :=
  mkManager {[ "ab" := entry_v1 ]} ["m00"] [].

(** A manager on an in-memory store that has received no call yet. *)
Definition mem_state (m : Manager) (blocks : list (ContentID * list byte))
    (budget : option nat) : St MemStore :=
  mkSt m (mkMem blocks budget) [].

(** The same with the entry still pending. *)
Definition manager_pending : Manager :=
  mkManager {[ "ab" := entry_v1 ]} ["m00"] [entry_v1].

(** The two bytes of the empty JSON object. *)
Definition braces : list byte := ["{"%byte; "}"%byte].

Definition store_braces : St MemStore :=
  mem_state (mkManager ∅ [] []) [("m00", braces)] None.

(** A new manager on a store whose context is already cancelled. *)
Definition fresh_cancelled : St MemStore :=
  mem_state (mkManager ∅ [] []) [] (Some 0%nat).

Definition manager_two : Manager :=
  mkManager {[ "ab" := entry_v1 ]} ["m00"; "m01"] [].

Definition doc_ab : list byte := list_byte_of_string "{ab}".

(** Seventeen blocks, each holding the gzip form of the document of
    [entry_v1]. *)
Definition seventeen_blocks : list (ContentID * list byte) :=
  (fun c => (String "m" (String c ""), "031"%byte :: "139"%byte :: doc_ab))
    <$> list_ascii_of_string "abcdefghijklmnopq".

Definition put_env : PutEnv :=
  mkPutEnv (Ok ["171"%byte; "205"%byte]) (Ok braces) 30.

Definition two_old_blocks : list (ContentID * list byte) :=
  [("m00", "031"%byte :: "139"%byte :: braces);
   ("m01", "031"%byte :: "139"%byte :: braces)].

Definition state_two : St MemStore := mem_state manager_two two_old_blocks None.

(** The identifier under which the in-memory store keeps the gzip form of
    the document of [entry_v1]. *)
Definition block_ab : ContentID := "m1f8b7b61627d".

(** A manager that already knows the block its compaction will write. *)
Definition state_rewrite : St MemStore :=
  mem_state (mkManager {[ "ab" := entry_v1 ]} [block_ab; "m00"] [])
            ((block_ab, "031"%byte :: "139"%byte :: doc_ab) :: two_old_blocks)
            None.

Definition state_empty : St MemStore :=
  mem_state (mkManager ∅ ["m00"; "m01"] []) two_old_blocks None.

(** ** Further vocabulary *)

(** Every entry of the index is stored under its own identifier. *)
Definition keys_agree (idx : gmap string manifestEntry) : Prop :=
  map_Forall (fun k e => ID e = k) idx.

(** The index is what a reload of the pending entries would produce. *)
Definition replays_pending (m : Manager) : Prop :=
  entries m = removeDeleted (mergeEntries ∅ (pendingEntries m)).

(** Every pending entry was modified before the instant [t]. *)
Definition pending_before (t : Time) (m : Manager) : Prop :=
  Forall (fun e => ModTime e < t) (pendingEntries m).

Definition corrupt_blocks : list (ContentID * list byte) :=
  [("ma", braces); ("mb", "031"%byte :: "139"%byte :: doc_ab)].

Definition seventeen_infos : list Info :=
  (fun kv => mkInfo kv.1 (length kv.2) 0) <$> seventeen_blocks.

(** ** The command-line callers (package [cli]) *)


Section ManifestShow.
Context {S : Type}.

(** [showContentWithFlags] is a helper of the package that is not in the
    sources at hand: it is taken as a parameter, with the bytes it is given
    and the error it may return. *)
Variable showContentWithFlags : list byte -> result unit.

End ManifestShow.

(** The struct [blockIndexEntryInfo]; [offset] and [size] are [uint32]. *)
Record blockIndexEntryInfo := mkLine {
  bi_blockID : string;
  bi_offset : Z;
  bi_size : Z;
  bi_inline : bool
}.

(** The conversion [uint32(x)]. *)
Definition uint32 (x : Z) : Z := x mod 2 ^ 32.

(** The line of [printIndexV1] for an item [blk, os] of [ndx.Items]. *)
Definition item_line (blk : string) (os : Z) : blockIndexEntryInfo :=
  mkLine blk (uint32 (Z.shiftr os 32)) (uint32 os) false.

(** The line of [printIndexV1] for an item [blk, d] of [ndx.InlineItems]. *)
Definition inline_line (blk : string) (d : list byte) : blockIndexEntryInfo :=
  mkLine blk 0 (uint32 (Z.of_nat (length d))) true.

(** [sortIndexBlocks], with the value of the flag [--sort]. *)
Definition sortIndexBlocks (mode : string) (lines : list blockIndexEntryInfo)
  : list blockIndexEntryInfo :=
  if decide (mode = "offset") then
    sort_Slice (fun a b => bi_offset a <? bi_offset b) lines
  else if decide (mode = "blockID") then
    sort_Slice (fun a b => String.ltb (bi_blockID a) (bi_blockID b)) lines
  else if decide (mode = "size") then
    sort_Slice (fun a b => bi_size a <? bi_size b) lines
  else lines.

(** The lines that [printIndexV1] prints for the added blocks of an index:
    those of the items, then those of the inline items, sorted. *)
Definition index_lines (mode : string) (items : gmap string Z)
    (inlineItems : gmap string (list byte)) : list blockIndexEntryInfo :=
  sortIndexBlocks mode
    ((uncurry item_line <$> map_to_list items)
       ++ (uncurry inline_line <$> map_to_list inlineItems)).

(** No line stands just before a line that the comparison puts first. *)
Definition no_inversion {A} (less : A -> A -> bool) (x y : A) : Prop :=
  less y x = false.

(** ** Merging *)

Section Merge.
Implicit Types (idx : gmap string manifestEntry) (a b e : manifestEntry).

Lemma mergeEntry_lookup_ne idx e k :
  ID e ≠ k -> mergeEntry idx e !! k = idx !! k.
Proof.
  intros Hk. unfold mergeEntry.
  destruct (idx !! ID e) as [prev|]; [destruct (time_After _ _)|];
    by rewrite ?lookup_insert_ne.
Qed.

Lemma mergeEntry_lookup_eq idx e :
  mergeEntry idx e !! ID e =
    match idx !! ID e with
    | None => Some e
    | Some prev =>
        if time_After (ModTime e) (ModTime prev) then Some e else Some prev
    end.
Proof.
  unfold mergeEntry.
  destruct (idx !! ID e) as [prev|] eqn:E; [destruct (time_After _ _)|];
    by rewrite ?lookup_insert_eq.
Qed.

Lemma mergeEntry_lookup idx e k :
  mergeEntry idx e !! k =
    if decide (ID e = k) then
      match idx !! k with
      | None => Some e
      | Some prev =>
          if time_After (ModTime e) (ModTime prev) then Some e else Some prev
      end
    else idx !! k.
Proof.
  case_decide as Hk.
  - subst k. apply mergeEntry_lookup_eq.
  - by apply mergeEntry_lookup_ne.
Qed.

Lemma mergeEntry_comm idx a b :
  (ID a = ID b -> ModTime a = ModTime b -> a = b) ->
  mergeEntry (mergeEntry idx a) b = mergeEntry (mergeEntry idx b) a.
Proof.
  intros Htie. apply map_eq; intros k.
  rewrite !mergeEntry_lookup.
  destruct (decide (ID a = k)) as [Ha|Ha], (decide (ID b = k)) as [Hb|Hb];
    try done.
  destruct (decide (ModTime a = ModTime b)) as [Ht|Ht].
  { by rewrite (Htie (eq_trans Ha (eq_sym Hb)) Ht). }
  unfold time_After.
  destruct (idx !! k) as [p|]; simpl;
    repeat (match goal with
            | |- context [?x <? ?y] => destruct (Z.ltb_spec x y); simpl
            end); try reflexivity; lia.
Qed.

Lemma tie_free_cons a es : tie_free (a :: es) -> tie_free es.
Proof. intros H x y Hx Hy. apply H; by right. Qed.

Lemma tie_free_perm es es' : es ≡ₚ es' -> tie_free es -> tie_free es'.
Proof.
  intros Hp H x y Hx Hy. apply H; by rewrite Hp.
Qed.

Lemma mergeEntries_perm es es' :
  es ≡ₚ es' -> tie_free es ->
  forall idx, mergeEntries idx es = mergeEntries idx es'.
Proof.
  unfold mergeEntries.
  induction 1 as [|x l l' Hp IH|x y l|l l' l'' Hp1 IH1 Hp2 IH2];
    intros Htf idx; simpl.
  - done.
  - apply IH. by eapply tie_free_cons.
  - f_equal. apply mergeEntry_comm. intros.
    apply Htf; [by left | right; by left | done | done].
  - rewrite IH1 by done. apply IH2. by eapply tie_free_perm.
Qed.

Lemma mergeManifests_flat mans :
  forall idx, mergeManifests idx mans = mergeEntries idx (all_entries mans).
Proof.
  unfold mergeManifests, mergeEntries, all_entries.
  induction mans as [|man mans IH]; intros idx; simpl; [done|].
  by rewrite foldl_app, IH.
Qed.
End Merge.

(** Whatever the picks, a schedule is a rearrangement of the blocks. *)
Lemma schedule_perm {A} (picks : list nat) :
  forall l : list A, schedule picks l ≡ₚ l.
Proof.
  induction picks as [|k picks IH]; intros l; simpl; [done|].
  destruct (l !! (k `mod` length l)%nat) as [x|] eqn:Hx; [|done].
  rewrite IH, Permutation_middle. by rewrite take_drop_middle.
Qed.

(** ** The merge rule *)

(** C4: when the index holds [a] under the identifier of the arriving entry
    [b], merging [b] replaces [a] by [b] exactly when the modification time
    of [b] is strictly greater; otherwise the index is unchanged and [a]
    stays.  The [Deleted] flags of [a] and [b] play no part. *)
Theorem mergeEntry_replaces_iff_newer
    (idx : gmap string manifestEntry) (a b : manifestEntry) :
  idx !! ID a = Some a ->
  ID b = ID a ->
  (ModTime a < ModTime b ->
     mergeEntry idx b = <[ID a := b]> idx /\ mergeEntry idx b !! ID a = Some b)
  /\ (ModTime b <= ModTime a ->
        mergeEntry idx b = idx /\ mergeEntry idx b !! ID a = Some a)
  /\ (mergeEntry idx b !! ID a = Some b <-> ModTime a < ModTime b \/ b = a).
Proof.
  intros Ha Hid. unfold mergeEntry, time_After. rewrite Hid, Ha.
  destruct (Z.ltb_spec (ModTime a) (ModTime b)) as [Hlt|Hle].
  - rewrite lookup_insert_eq. repeat split; auto; lia.
  - rewrite Ha. repeat split; try done; try lia.
    + intros [= ->]. by right.
    + intros [?| ->]; [lia | done].
Qed.

Lemma mergeEntry_replaces_iff_newer_witness :
  mergeEntry {[ "ab" := entry_v1 ]} entry_v2 !! "ab" = Some entry_v2.
Proof.
  assert (H1 : ({[ "ab" := entry_v1 ]} : gmap string manifestEntry)
                 !! ID entry_v1 = Some entry_v1) by reflexivity.
  assert (H2 : ID entry_v2 = ID entry_v1) by reflexivity.
  destruct (mergeEntry_replaces_iff_newer _ entry_v1 entry_v2 H1 H2)
    as (Hnew & _ & _).
  apply Hnew. simpl. lia.
Defined.

(** C1, as the code has it: for two merge orders of the same entries, where
    no two different entries share both identifier and modification time,
    the merged index is the same, before and after the removal of the
    tombstones, from whatever index the merge starts. *)
Theorem merge_order_independent
    (idx : gmap string manifestEntry) (mans1 mans2 : list manifest) :
  all_entries mans1 ≡ₚ all_entries mans2 ->
  tie_free (all_entries mans1) ->
  mergeManifests idx mans1 = mergeManifests idx mans2
  /\ removeDeleted (mergeManifests idx mans1)
     = removeDeleted (mergeManifests idx mans2).
Proof.
  intros Hp Htf.
  assert (mergeManifests idx mans1 = mergeManifests idx mans2) as ->;
    [|done].
  rewrite !mergeManifests_flat. by apply mergeEntries_perm.
Qed.

Lemma merge_order_independent_witness :
  removeDeleted (mergeManifests ∅ [mkManifest [entry_v1]; mkManifest [entry_v2]])
  = removeDeleted (mergeManifests ∅ [mkManifest [entry_v2; entry_v1]]).
Proof.
  apply (merge_order_independent ∅
           [mkManifest [entry_v1]; mkManifest [entry_v2]]
           [mkManifest [entry_v2; entry_v1]]).
  - simpl. apply perm_swap.
  - intros a b Ha Hb _ Ht. simpl in Ha, Hb.
    apply elem_of_cons in Ha as [->|Ha]; apply elem_of_cons in Hb as [->|Hb];
      try apply list_elem_of_singleton in Ha as ->;
      try apply list_elem_of_singleton in Hb as ->;
      try reflexivity; vm_compute in Ht; discriminate Ht.
Defined.

(** C1 as stated fails: a live entry and a tombstone with the same
    identifier and the same modification time, merged in the two orders,
    give different indexes. *)
Lemma merge_order_counterexample :
  all_entries [mkManifest [entry_v1]; mkManifest [tombstone_v1]]
    ≡ₚ all_entries [mkManifest [tombstone_v1]; mkManifest [entry_v1]]
  /\ removeDeleted
       (mergeManifests ∅ [mkManifest [entry_v1]; mkManifest [tombstone_v1]])
     = {[ "ab" := entry_v1 ]}
  /\ removeDeleted
       (mergeManifests ∅ [mkManifest [tombstone_v1]; mkManifest [entry_v1]])
     = ∅
  /\ removeDeleted
       (mergeManifests ∅ [mkManifest [entry_v1]; mkManifest [tombstone_v1]])
     <> removeDeleted
       (mergeManifests ∅ [mkManifest [tombstone_v1]; mkManifest [entry_v1]]).
Proof.
  assert (H1 : removeDeleted
       (mergeManifests ∅ [mkManifest [entry_v1]; mkManifest [tombstone_v1]])
     = {[ "ab" := entry_v1 ]}) by (vm_compute; reflexivity).
  assert (H2 : removeDeleted
       (mergeManifests ∅ [mkManifest [tombstone_v1]; mkManifest [entry_v1]])
     = ∅) by (vm_compute; reflexivity).
  split; [apply perm_swap|]. split; [exact H1|]. split; [exact H2|].
  rewrite H1, H2. intros H.
  apply (f_equal (fun m : gmap string manifestEntry => m !! "ab")) in H.
  rewrite lookup_singleton_eq, lookup_empty in H. discriminate H.
Qed.

(** ** Find *)

Section FindLemmas.
Lemma copyLabels_id (m : gmap string string) : copyLabels m = m.
Proof.
  unfold copyLabels.
  apply (map_fold_weak_ind (fun r m => r = m)); [done|].
  intros i x m' r _ ->. done.
Qed.

Lemma matchesLabels_spec (a b : gmap string string) :
  matchesLabels a b = true <->
  forall k v, b !! k = Some v -> label_at a k = v.
Proof.
  unfold matchesLabels. rewrite forallb_forall. split.
  - intros H k v Hkv.
    assert (Hin : In (k, v) (map_to_list b)).
    { by apply list_elem_of_In, elem_of_map_to_list. }
    apply H in Hin. simpl in Hin. by apply bool_decide_eq_true in Hin.
  - intros H [k v] Hin. simpl.
    apply bool_decide_eq_true, H.
    by apply elem_of_map_to_list, list_elem_of_In.
Qed.

Context {A : Type} (less : A -> A -> bool).

Lemma insert_by_perm x l : insert_by less x l ≡ₚ x :: l.
Proof.
  induction l as [|y l IH]; simpl; [done|].
  destruct (less y x); [|done].
  rewrite IH. apply perm_swap.
Qed.

Lemma sort_Slice_perm l : sort_Slice less l ≡ₚ l.
Proof.
  induction l as [|x l IH]; simpl; [done|].
  fold (sort_Slice less l). by rewrite insert_by_perm, IH.
Qed.

Context (key : A -> Z)
        (less_key : forall x y, less x y = (key x <? key y)).

Lemma insert_by_sorted x l :
  StronglySorted (le_by key) l -> StronglySorted (le_by key) (insert_by less x l).
Proof.
  induction 1 as [|y l Hs IH Hall]; simpl.
  - repeat constructor.
  - rewrite less_key. destruct (Z.ltb_spec (key y) (key x)) as [Hlt|Hle].
    + constructor; [done|].
      rewrite insert_by_perm. constructor; [unfold le_by; lia | done].
    + constructor; [by constructor|].
      constructor; [done|].
      eapply Forall_impl; [exact Hall|]. unfold le_by. intros; lia.
Qed.

Lemma sort_Slice_sorted l : StronglySorted (le_by key) (sort_Slice less l).
Proof.
  induction l as [|x l IH]; simpl; [constructor|].
  by apply insert_by_sorted.
Qed.
End FindLemmas.

(** X29: on an index without tombstones, [Find] returns one metadata record
    for each entry of the index, all of them live, that [matchesLabels]
    accepts for the query, which is to say whose labels, read with the empty
    string for an absent key, give for every key of the query the value of
    the query; the empty query is matched by every entry; the result is in
    ascending order of modification time. *)
Theorem Find_matches_sorted (m : Manager) (Q : gmap string string) :
  index_live (entries m) ->
  Find m Q ≡ₚ
    cloneEntryMetadata <$>
      filter (fun e => matchesLabels (Labels e) Q = true)
             (range_values (entries m))
  /\ (forall md, md ∈ Find m Q <->
        exists k e, entries m !! k = Some e /\ Deleted e = false
          /\ (forall key v, Q !! key = Some v -> label_at (Labels e) key = v)
          /\ md = mkMetadata (ID e) (length (Content e)) (Labels e) (ModTime e))
  /\ (forall a, matchesLabels a ∅ = true)
  /\ StronglySorted md_le (Find m Q).
Proof.
  intros Hlive.
  assert (Hperm : Find m Q ≡ₚ
    cloneEntryMetadata <$>
      filter (fun e => matchesLabels (Labels e) Q = true)
             (range_values (entries m))) by apply sort_Slice_perm.
  split; [exact Hperm|]. split; [|split].
  - intros md. rewrite Hperm, list_elem_of_fmap. split.
    + intros (e & -> & He). apply list_elem_of_filter in He as [Hm He].
      unfold range_values in He. apply list_elem_of_fmap in He as ([k e'] & -> & Hk).
      apply elem_of_map_to_list in Hk. exists k, e'. simpl.
      split; [done|]. split; [by apply (Hlive k)|].
      split; [by apply matchesLabels_spec|].
      unfold cloneEntryMetadata. by rewrite copyLabels_id.
    + intros (k & e & Hk & _ & Hm & ->). exists e. split.
      * unfold cloneEntryMetadata. by rewrite copyLabels_id.
      * apply list_elem_of_filter. split; [by apply matchesLabels_spec|].
        unfold range_values. apply list_elem_of_fmap. exists (k, e).
        split; [done|]. by apply elem_of_map_to_list.
  - intros a. apply matchesLabels_spec. intros k v. by rewrite lookup_empty.
  - unfold Find. apply (sort_Slice_sorted _ md_ModTime). done.
Qed.

Lemma Find_matches_sorted_witness :
  Find manager_one {[ "type" := "snap" ]} ≡ₚ
    cloneEntryMetadata <$>
      filter (fun e => matchesLabels (Labels e) {[ "type" := "snap" ]} = true)
             (range_values (entries manager_one)).
Proof.
  apply (Find_matches_sorted manager_one {[ "type" := "snap" ]}).
  intros k e. simpl. intros [<- <-]%lookup_singleton_Some. reflexivity.
Defined.

(** C2: the code at the failing input.  The comment on [matchesLabels] says
    that it returns true when all entries of the query are found in the
    labels; yet on the index whose one entry has the label [type] only, the
    query that asks for the label [host] with the empty value finds that
    entry, which has no label [host]. *)
Lemma Find_matches_absent_label :
  Find manager_one {[ "host" := "" ]}
    = [mkMetadata "ab" 0 {[ "type" := "snap" ]} 10]
  /\ entries manager_one !! "ab" = Some entry_v1
  /\ ({[ "host" := "" ]} : gmap string string) !! "host" = Some ""
  /\ Labels entry_v1 !! "host" = None.
Proof. repeat split; vm_compute; reflexivity. Qed.

(** ** Flush *)

Ltac unfold_op :=
  unfold bind, wrap, liftR, call, modify, get_mgr, ret, fail in *;
  cbv beta iota in *.

Section FlushLemmas.
Context {S : Type} {bm : BlockManager S} {codec : Codec}.
Implicit Types (st : St S).

(** The three outcomes of [flushPendingEntriesLocked]: nothing to do, a
    block written, or a failure that leaves the manager untouched. *)
Lemma flushPendingEntriesLocked_outcome st r st' :
  flushPendingEntriesLocked st = (r, st') ->
  (pendingEntries (mgr st) = [] /\ r = Ok "" /\ st' = st)
  \/ (pendingEntries (mgr st) <> [] /\
      exists buf h,
        r = Ok (manifestBlockPrefix +:+ h) /\
        mgr st' = set_pendingEntries [] (mgr st) /\
        calls st' = (calls st ++ [CallWriteBlock buf manifestBlockPrefix])%list)
  \/ (pendingEntries (mgr st) <> [] /\
      (exists e, r = Err e) /\ mgr st' = mgr st /\
      (calls st' = calls st \/
       exists buf,
         calls st' = (calls st ++ [CallWriteBlock buf manifestBlockPrefix])%list)).
Proof.
  unfold flushPendingEntriesLocked. unfold_op.
  destruct (pendingEntries (mgr st)) as [|e0 es] eqn:Hp.
  { intros ?; simplify_eq. by left. }
  intros Hrun. right.
  destruct (json_Encode _) as [js|e1]; simpl in Hrun.
  2:{ simplify_eq. right. split; [done|]. eauto 10. }
  destruct (gzip_Flush js) as [[]|e2]; simpl in Hrun.
  2:{ simplify_eq. right. split; [done|]. eauto 10. }
  destruct (gzip_Close js) as [buf|e3]; simpl in Hrun.
  2:{ simplify_eq. right. split; [done|]. eauto 10. }
  destruct (WriteBlock buf manifestBlockPrefix (store st))
    as [[id|e4] s'] eqn:Hw; simpl in Hrun.
  - simplify_eq. left. split; [done|].
    destruct (WriteBlock_prefix _ _ _ _ _ Hw) as [h ->].
    exists buf, h. done.
  - simplify_eq. right. split; [done|]. simpl. eauto 10.
Qed.
(** The exact course of [flushPendingEntriesLocked] on pending entries. *)
Lemma flushPendingEntriesLocked_exact st r st' :
  flushPendingEntriesLocked st = (r, st') ->
  pendingEntries (mgr st) <> [] ->
  (st' = st /\
   exists cause,
     (json_Encode (mkManifest (pendingEntries (mgr st))) = Err cause
      /\ r = Err (Errorf "unable to marshal: %v" [] cause))
     \/ (exists js,
           json_Encode (mkManifest (pendingEntries (mgr st))) = Ok js
           /\ ((gzip_Flush js = Err cause
                /\ r = Err (Errorf "unable to flush: %v" [] cause))
               \/ (gzip_Close js = Err cause
                   /\ r = Err (Errorf "unable to close: %v" [] cause)))))
  \/ (exists js buf s',
        json_Encode (mkManifest (pendingEntries (mgr st))) = Ok js
        /\ gzip_Close js = Ok buf
        /\ WriteBlock buf manifestBlockPrefix (store st) = (r, s')
        /\ st' = mkSt (match r with
                       | Ok _ => set_pendingEntries [] (mgr st)
                       | Err _ => mgr st
                       end) s'
                      (calls st ++ [CallWriteBlock buf manifestBlockPrefix])).
Proof.
  unfold flushPendingEntriesLocked. unfold_op.
  destruct (pendingEntries (mgr st)) as [|e0 es] eqn:Hp; [done|].
  intros Hrun _.
  destruct (json_Encode _) as [js|e1] eqn:Hj; simpl in Hrun.
  2:{ simplify_eq. left. split; [done|]. exists e1. by left. }
  destruct (gzip_Flush js) as [[]|e2] eqn:Hf; simpl in Hrun.
  2:{ simplify_eq. left. split; [done|]. exists e2. right.
      exists js. split; [done|]. by left. }
  destruct (gzip_Close js) as [buf|e3] eqn:Hc; simpl in Hrun.
  2:{ simplify_eq. left. split; [done|]. exists e3. right.
      exists js. split; [done|]. by right. }
  right. exists js, buf.
  destruct (WriteBlock buf manifestBlockPrefix (store st)) as [[id|e4] s'];
    simpl in Hrun; simplify_eq; exists s'; by rewrite ?Hp.
Qed.
End FlushLemmas.

(** C5: [Flush] either succeeds or fails.  When it succeeds the pending
    entries are cleared; if there were none, no call is made and the known
    blocks are unchanged; if there were some, exactly one call is made, the
    [WriteBlock] of their encoded document, and exactly one identifier is
    appended to the known blocks, the one that this call returned.  When it
    fails the manager (pending entries and known blocks included) is as it
    was. *)
Theorem Flush_outcome {S : Type} {bm : BlockManager S} {codec : Codec}
    (st st' : St S) (r : result unit) :
  Flush st = (r, st') ->
  match r with
  | Ok _ =>
      pendingEntries (mgr st') = []
      /\ entries (mgr st') = entries (mgr st)
      /\ match pendingEntries (mgr st) with
         | [] =>
             blockIDs (mgr st') = blockIDs (mgr st)
             /\ calls st' = calls st /\ store st' = store st
         | _ :: _ =>
             exists js buf id,
               json_Encode (mkManifest (pendingEntries (mgr st))) = Ok js
               /\ gzip_Close js = Ok buf
               /\ WriteBlock buf manifestBlockPrefix (store st)
                  = (Ok id, store st')
               /\ calls st'
                  = calls st ++ [CallWriteBlock buf manifestBlockPrefix]
               /\ id <> ""
               /\ blockIDs (mgr st') = blockIDs (mgr st) ++ [id]
         end
  | Err _ =>
      mgr st' = mgr st
  end.
Proof.
  unfold Flush, bind.
  destruct (flushPendingEntriesLocked st) as [r0 st0] eqn:Hf.
  destruct (pendingEntries (mgr st)) as [|e0 es] eqn:Hp.
  - apply flushPendingEntriesLocked_outcome in Hf
      as [(_ & -> & ->)|[(Hne & _)|(Hne & _)]];
      [|by rewrite Hp in Hne|by rewrite Hp in Hne].
    simpl. unfold ret. intros ?; simplify_eq. by rewrite Hp.
  - apply flushPendingEntriesLocked_exact in Hf; [|by rewrite Hp].
    rewrite Hp in Hf.
    destruct Hf as [[-> (cause & H)]|(js & buf & s' & Hj & Hc & Hw & ->)].
    + destruct H as [[_ ->]|(js & _ & [[_ ->]|[_ ->]])];
        intros ?; by simplify_eq.
    + destruct r0 as [id|e]; [|intros ?; by simplify_eq].
      destruct (WriteBlock_prefix _ _ _ _ _ Hw) as [h ->].
      destruct (decide _) as [Heq|Hne]; [discriminate Heq|].
      unfold modify. intros ?; simplify_eq. simpl.
      split; [done|]. split; [done|]. exists js, buf. eauto 10.
Qed.

Lemma Flush_outcome_witness :
  exists buf id,
    WriteBlock buf manifestBlockPrefix (mkMem [] None)
    = (Ok id,
       store (Flush (codec := StubCodec [])
                (mem_state manager_pending [] None)).2)
    /\ blockIDs (mgr (Flush (codec := StubCodec [])
                         (mem_state manager_pending [] None)).2)
       = ["m00"] ++ [id].
Proof.
  pose proof (Flush_outcome (codec := StubCodec [])
                (mem_state manager_pending [] None)
                (Flush (codec := StubCodec [])
                   (mem_state manager_pending [] None)).2
                (Ok tt) eq_refl) as (_ & _ & H).
  destruct H as (js & buf & id & _ & _ & Hw & _ & _ & Hids).
  exists buf, id. split; [exact Hw | exact Hids].
Defined.

(** ** Compaction *)

Section CompactLemmas.
Context {S : Type} {bm : BlockManager S} {codec : Codec}.
Implicit Types (st : St S).

Lemma deleteBlocksExcept_outcome (B : ContentID) (ids : list ContentID) :
  forall st r st',
    deleteBlocksExcept B ids st = (r, st') ->
    mgr st' = mgr st /\
    exists deleted,
      calls st' = (calls st ++ (CallDeleteBlock <$> deleted))%list
      /\ deleted `prefix_of` filter (fun b => b <> B) ids
      /\ (is_Ok r = true -> deleted = filter (fun b => b <> B) ids).
Proof.
  induction ids as [|b ids IH]; intros st r st' Hrun; simpl in Hrun.
  - unfold ret in Hrun. simplify_eq. split; [done|]. exists [].
    simpl. rewrite app_nil_r. done.
  - destruct (decide (b = B)) as [->|Hb].
    + rewrite filter_cons_False by (intros H; by apply H). by apply IH.
    + rewrite filter_cons_True by done.
      unfold_op. destruct (DeleteBlock b (store st)) as [[[]|e] s'].
      * apply IH in Hrun as (Hm & deleted & Hc & Hpre & Hok).
        split; [done|]. exists (b :: deleted). simpl in *.
        rewrite Hc, <- app_assoc. split; [done|].
        split; [by apply prefix_cons|]. intros H. by rewrite Hok.
      * simplify_eq. split; [done|]. exists [b]. simpl.
        split; [done|]. split; [apply prefix_cons, prefix_nil|done].
Qed.

Lemma compactLocked_unfold st :
  compactLocked st =
    if decide (already_compact (mgr st)) then (Ok tt, st)
    else
      match flushPendingEntriesLocked (compact_stage st) with
      | (Err e, st2) => (Err e, st2)
      | (Ok B, st2) =>
          let st3 := mkSt (set_blockIDs (blockIDs (mgr st2) ++ [B]) (mgr st2))
                          (store st2) (calls st2) in
          match deleteBlocksExcept B (blockIDs (mgr st3)) st3 with
          | (Err e, st4) => (Err e, st4)
          | (Ok _, st4) =>
              (Ok tt, mkSt (set_blockIDs [B] (mgr st4)) (store st4) (calls st4))
          end
      end.
Proof.
  unfold compactLocked, already_compact. unfold_op.
  destruct (decide _); [done|].
  fold (compact_stage st).
  destruct (flushPendingEntriesLocked (compact_stage st)) as [[B|e] st2];
    [|done].
  simpl. by destruct (deleteBlocksExcept _ _ _) as [[[]|e] st4].
Qed.

(** What a run of [compactLocked] that is not cut short does: the flush of
    the staged manager, then the deletions. *)
Lemma compactLocked_run st r st' :
  compactLocked st = (r, st') ->
  ~ already_compact (mgr st) ->
  exists rf st2,
    flushPendingEntriesLocked (compact_stage st) = (rf, st2) /\
    match rf with
    | Err e => r = Err e /\ st' = st2
    | Ok B =>
        exists deleted,
          calls st' = (calls st2 ++ (CallDeleteBlock <$> deleted))%list
          /\ deleted
               `prefix_of` filter (fun b => b <> B) (blockIDs (mgr st2) ++ [B])
          /\ (is_Ok r = true ->
                deleted = filter (fun b => b <> B) (blockIDs (mgr st2) ++ [B])
                /\ mgr st' = set_blockIDs [B] (mgr st2))
          /\ entries (mgr st') = entries (mgr st2)
    end.
Proof.
  rewrite compactLocked_unfold. intros Hrun Hnot.
  destruct (decide _); [done|].
  destruct (flushPendingEntriesLocked (compact_stage st)) as [[B|e] st2].
  2:{ exists (Err e), st2. split; [done|]. by simplify_eq. }
  exists (Ok B), st2. split; [done|]. simpl in Hrun.
  destruct (deleteBlocksExcept _ _ _) as [rd st4] eqn:Hd.
  apply deleteBlocksExcept_outcome in Hd as (Hm & deleted & Hc & Hpre & Hok).
  simpl in *. exists deleted.
  destruct rd as [[]|e]; simplify_eq; simpl.
  - rewrite Hm. split; [done|]. split; [done|]. split; [|done].
    intros _. split; [by apply Hok|]. done.
  - rewrite Hm. repeat split; try done.
Qed.
End CompactLemmas.

Section CompactTheorems.
Context {S : Type} {bm : BlockManager S} {codec : Codec}.
Implicit Types (st : St S).

Lemma flushPendingEntriesLocked_keeps st r st' :
  flushPendingEntriesLocked st = (r, st') ->
  entries (mgr st') = entries (mgr st)
  /\ blockIDs (mgr st') = blockIDs (mgr st)
  /\ exists written,
       calls st' = calls st ++ written
       /\ (written = [] \/
           exists buf, written = [CallWriteBlock buf manifestBlockPrefix]).
Proof.
  intros Hf. apply flushPendingEntriesLocked_outcome in Hf
    as [(_ & _ & ->)|[(_ & buf & h & _ & -> & ->)|(_ & _ & -> & Hc)]].
  - repeat split. exists []. rewrite app_nil_r. auto.
  - repeat split. eauto.
  - repeat split. destruct Hc as [->|[buf ->]]; [exists []|eauto].
    rewrite app_nil_r. auto.
Qed.

(** C6: when [Compact] succeeds, exactly one block is known afterwards and
    the index is the index from before the compaction. *)
Theorem Compact_one_block_same_index st st' :
  Compact st = (Ok tt, st') ->
  length (blockIDs (mgr st')) = 1%nat
  /\ entries (mgr st') = entries (mgr st).
Proof.
  unfold Compact. intros Hrun.
  destruct (decide (already_compact (mgr st))) as [Hal|Hnot].
  - rewrite compactLocked_unfold in Hrun.
    destruct (decide _); [|done]. simplify_eq. by destruct Hal.
  - destruct (compactLocked_run _ _ _ Hrun Hnot) as (rf & st2 & Hf & Hrest).
    apply flushPendingEntriesLocked_keeps in Hf as (He & _).
    destruct rf as [B|e]; [|by destruct Hrest].
    destruct Hrest as (invoked & _ & _ & Hok & He').
    destruct (Hok eq_refl) as [_ Hm].
    split; [by rewrite Hm | by rewrite He', He].
Qed.

(** C8: the delete calls that [compactLocked] makes are made on known
    blocks, and never on the identifier [B] that its flush returned; when
    the compaction succeeds they are exactly the known blocks other than
    [B]. *)
Theorem compactLocked_spares_written_block st r st' :
  compactLocked st = (r, st') ->
  exists written invoked,
    calls st' = calls st ++ written ++ (CallDeleteBlock <$> invoked)
    /\ (written = [] \/
        exists buf, written = [CallWriteBlock buf manifestBlockPrefix])
    /\ (forall b, b ∈ invoked -> b ∈ blockIDs (mgr st))
    /\ forall B st2,
         flushPendingEntriesLocked (compact_stage st) = (Ok B, st2) ->
         (B ∉ invoked)
         /\ (is_Ok r = true -> ~ already_compact (mgr st) ->
             invoked = filter (fun b => b <> B) (blockIDs (mgr st))).
Proof.
  intros Hrun.
  destruct (decide (already_compact (mgr st))) as [Hal|Hnot].
  { rewrite compactLocked_unfold in Hrun.
    destruct (decide _); [|done]. simplify_eq.
    exists [], []. simpl. rewrite app_nil_r.
    split; [done|]. split; [by left|]. split; [by intros b ?%elem_of_nil|].
    intros B st2 _. split; [by intros ?%elem_of_nil | done]. }
  destruct (compactLocked_run _ _ _ Hrun Hnot) as (rf & st2 & Hf & Hrest).
  destruct (flushPendingEntriesLocked_keeps _ _ _ Hf)
    as (_ & Hids & written & Hw & Hshape).
  simpl in Hids, Hw.
  destruct rf as [B|e].
  - destruct Hrest as (invoked & Hc & Hpre & Hok & _).
    rewrite Hids in Hpre, Hok.
    rewrite filter_app, (filter_cons_False _ B) in Hpre, Hok
      by (intros H; by apply H).
    rewrite filter_nil, app_nil_r in Hpre, Hok.
    exists written, invoked.
    split; [by rewrite Hc, Hw, app_assoc|]. split; [done|].
    assert (Hin : forall b, b ∈ invoked -> b ∈ blockIDs (mgr st) /\ b <> B).
    { intros b Hb. eapply elem_of_prefix in Hb; [|exact Hpre].
      apply list_elem_of_filter in Hb as [? ?]. done. }
    split; [intros b Hb; by apply Hin|].
    intros B' st2' HB'. rewrite Hf in HB'. simplify_eq.
    split; [intros Hb; by apply Hin in Hb as [_ ?]|].
    intros Hr _. by apply Hok.
  - destruct Hrest as [-> ->].
    exists written, []. simpl. rewrite app_nil_r.
    split; [done|]. split; [done|]. split; [by intros b ?%elem_of_nil|].
    intros B st2' HB. rewrite Hf in HB. discriminate HB.
Qed.

(** C10: on a manager with an empty index, no pending entries and a number
    of known blocks other than one, a successful [Compact] calls
    [WriteBlock] not at all (its only calls delete the known blocks with a
    non-empty identifier) and leaves as known blocks the list of the empty
    identifier. *)
Theorem Compact_empty_manager st st' :
  entries (mgr st) = ∅ ->
  pendingEntries (mgr st) = [] ->
  length (blockIDs (mgr st)) <> 1%nat ->
  Compact st = (Ok tt, st') ->
  exists cs,
    calls st' = calls st ++ cs
    /\ cs = CallDeleteBlock <$> filter (fun b => b <> "") (blockIDs (mgr st))
    /\ (forall data prefix, CallWriteBlock data prefix ∉ cs)
    /\ blockIDs (mgr st') = [""].
Proof.
  intros He Hp Hlen Hrun. unfold Compact in Hrun.
  assert (Hnot : ~ already_compact (mgr st)) by (by intros [? _]).
  destruct (compactLocked_run _ _ _ Hrun Hnot) as (rf & st2 & Hf & Hrest).
  assert (Hstage : pendingEntries (mgr (compact_stage st)) = []).
  { simpl. rewrite Hp, He. unfold range_values.
    by rewrite map_to_list_empty. }
  apply flushPendingEntriesLocked_outcome in Hf
    as [(_ & -> & ->)|[(Hne & _)|(Hne & _)]]; [|done|done].
  destruct Hrest as (invoked & Hc & _ & Hok & _).
  destruct (Hok eq_refl) as [-> Hm]. simpl in *.
  rewrite filter_app, (filter_cons_False _ "") in Hc
    by (intros H; by apply H).
  rewrite filter_nil, app_nil_r in Hc.
  eexists. split; [exact Hc|]. split; [done|]. split; [|by rewrite Hm].
  intros data prefix Hin. apply list_elem_of_fmap in Hin as (? & ? & _).
  discriminate.
Qed.
End CompactTheorems.

(** ** Reading a block *)

Section ReadLemmas.
Context {S : Type} {bm : BlockManager S} {codec : Codec}.
Implicit Types (st : St S).

Lemma uncompressed_format_spec (blk : list byte) :
  uncompressed_format blk = true <->
  (2 < length blk)%nat /\ head blk = Some "{"%byte.
Proof.
  unfold uncompressed_format. rewrite andb_true_iff, Nat.ltb_lt.
  destruct blk as [|b0 blk]; simpl.
  - split; [intros [_ ?]; discriminate | intros [_ ?]; discriminate].
  - split; intros [Hl Hb]; split; try done.
    + f_equal. by apply Byte.byte_dec_bl.
    + injection Hb as ->. reflexivity.
Qed.

Lemma loadManifestBlock_keeps blockID st r st' :
  loadManifestBlock blockID st = (r, st') ->
  mgr st' = mgr st /\ calls st' = calls st ++ [CallGetBlock blockID].
Proof.
  unfold loadManifestBlock. unfold_op.
  destruct (GetBlock blockID (store st)) as [[blk|e] s']; simpl.
  - destruct (_ && _).
    + destruct (json_Unmarshal blk); intros ?; by simplify_eq.
    + destruct (gzip_NewReader blk) as [gz|]; simpl;
        [destruct (json_Decode gz)|]; intros ?; by simplify_eq.
  - intros ?; by simplify_eq.
Qed.
End ReadLemmas.

(** C7, as the code has it: a fetched block is parsed as an uncompressed
    JSON document exactly when it is longer than two bytes and its first
    byte is an opening brace, and is read as gzip otherwise; a failure to
    fetch, to unpack or to parse is an error that names the block. *)
Theorem loadManifestBlock_format {S : Type} {bm : BlockManager S}
    {codec : Codec} (blockID : ContentID) (st : St S) :
  let fetched := GetBlock blockID (store st) in
  let st1 := mkSt (mgr st) fetched.2 (calls st ++ [CallGetBlock blockID]) in
  (forall blk, fetched.1 = Ok blk ->
     (uncompressed_format blk = true <->
        (2 < length blk)%nat /\ head blk = Some "{"%byte)
     /\ loadManifestBlock blockID st =
          (if uncompressed_format blk then
             match json_Unmarshal blk with
             | Ok man => Ok man
             | Err e =>
                 Err (Errorf "unable to parse block %q: %v" [blockID] e)
             end
           else
             match gzip_NewReader blk with
             | Err e =>
                 Err (Errorf "unable to unpack block %q: %v" [blockID] e)
             | Ok gz =>
                 match json_Decode gz with
                 | Ok man => Ok man
                 | Err e =>
                     Err (Errorf "unable to parse block %q: %v" [blockID] e)
                 end
             end, st1))
  /\ (forall e, fetched.1 = Err e ->
        loadManifestBlock blockID st =
          (Err (Errorf "unable to read block %q: %v" [blockID] e), st1))
  /\ (forall e, (loadManifestBlock blockID st).1 = Err e ->
        names_block e blockID).
Proof.
  intros fetched st1. subst fetched st1.
  unfold loadManifestBlock, names_block. unfold_op.
  fold (uncompressed_format).
  destruct (GetBlock blockID (store st)) as [[blk|e0] s']; simpl.
  - split; [|split].
    + intros ? [= <-]. split; [apply uncompressed_format_spec|].
      fold (uncompressed_format blk).
      destruct (uncompressed_format blk).
      * by destruct (json_Unmarshal blk).
      * destruct (gzip_NewReader blk) as [gz|]; [|done]. simpl.
        by destruct (json_Decode gz).
    + intros ? [=].
    + intros e. fold (uncompressed_format blk).
      destruct (uncompressed_format blk).
      * destruct (json_Unmarshal blk); simpl; intros [=]; subst; eauto.
      * destruct (gzip_NewReader blk) as [gz|]; simpl;
          [destruct (json_Decode gz); simpl|]; intros [=]; subst; eauto.
  - split; [|split].
    + intros ? [=].
    + by intros ? [= <-].
    + intros e [= <-]. eauto.
Qed.

(** C7 as stated fails: the two-byte block [{}], which [json.Unmarshal]
    accepts as an empty manifest, starts with an opening brace and is yet
    handed to [gzip.NewReader], which rejects it. *)
Lemma loadManifestBlock_short_counterexample :
  head braces = Some "{"%byte
  /\ json_Unmarshal (Codec := StubCodec [(braces, mkManifest [])]) braces
     = Ok (mkManifest [])
  /\ (loadManifestBlock (codec := StubCodec [(braces, mkManifest [])])
        "m00" store_braces).1
     = Err (Errorf "unable to unpack block %q: %v" ["m00"]
              (ErrExternal "gzip: invalid header")).
Proof. repeat split; vm_compute; reflexivity. Qed.

(** ** Loading *)

Section LoadLemmas.
Context {S : Type} {bm : BlockManager S} {codec : Codec}.
Implicit Types (st : St S).

Lemma removeDeleted_live (idx : gmap string manifestEntry) :
  index_live (removeDeleted idx).
Proof.
  intros k e Hk. unfold removeDeleted in Hk.
  by apply map_lookup_filter_Some in Hk as [_ ?].
Qed.

Lemma Flush_run st r st' :
  Flush st = (r, st') ->
  entries (mgr st') = entries (mgr st)
  /\ (is_Ok r = false -> mgr st' = mgr st).
Proof.
  unfold Flush, bind.
  destruct (flushPendingEntriesLocked st) as [r0 st0] eqn:Hf.
  apply flushPendingEntriesLocked_outcome in Hf
    as [(Hp & -> & ->)|[(Hp & buf & h & -> & Hm & Hc)|(Hp & [e ->] & Hm & Hc)]].
  - simpl. unfold ret. intros ?; by simplify_eq.
  - destruct (decide _) as [Heq|_]; [discriminate Heq|].
    unfold modify. intros ?; simplify_eq. simpl. by rewrite Hm.
  - intros ?; simplify_eq. by rewrite Hm.
Qed.

Lemma loadEach_keeps ids :
  forall st rs st', loadEach ids st = (rs, st') -> mgr st' = mgr st.
Proof.
  induction ids as [|id ids IH]; intros st rs st'; simpl.
  - intros ?; by simplify_eq.
  - destruct (loadManifestBlock id st) as [r st1] eqn:H1.
    destruct (loadEach ids st1) as [rs' st2] eqn:H2.
    intros ?; simplify_eq.
    apply IH in H2. rewrite H2.
    by apply loadManifestBlock_keeps in H1 as [-> _].
Qed.

Lemma loadBlocksInParallel_keeps sched blocks st r st' :
  loadBlocksInParallel sched blocks st = (r, st') -> mgr st' = mgr st.
Proof.
  unfold loadBlocksInParallel.
  destruct (loadEach _ st) as [rs st1] eqn:H1.
  apply loadEach_keeps in H1.
  destruct (channel_errors rs); intros ?; by simplify_eq.
Qed.

Lemma loadManifestBlocks_run sched blocks st r st' :
  loadManifestBlocks sched blocks st = (r, st') ->
  (is_Ok r = false /\ entries (mgr st') = entries (mgr st))
  \/ (r = Ok tt /\ index_live (entries (mgr st'))).
Proof.
  unfold loadManifestBlocks. unfold_op.
  destruct (loadBlocksInParallel _ _ _) as [[mans|e] st1] eqn:H1;
    apply loadBlocksInParallel_keeps in H1; simpl in H1;
    intros ?; simplify_eq.
  - right. split; [done|]. simpl. apply removeDeleted_live.
  - left. split; [done|]. by rewrite H1.
Qed.

Lemma compactLocked_entries st r st' :
  compactLocked st = (r, st') -> entries (mgr st') = entries (mgr st).
Proof.
  intros Hrun.
  destruct (decide (already_compact (mgr st))) as [Hal|Hnot].
  - rewrite compactLocked_unfold in Hrun.
    destruct (decide _); [|done]. by simplify_eq.
  - destruct (compactLocked_run _ _ _ Hrun Hnot) as (rf & st2 & Hf & Hrest).
    apply flushPendingEntriesLocked_keeps in Hf as (He & _).
    destruct rf as [B|e].
    + destruct Hrest as (_ & _ & _ & _ & ->). done.
    + destruct Hrest as [_ ->]. done.
Qed.

(** Where a run of [load] can end. *)
Lemma load_run sched st r st' :
  load sched st = (r, st') ->
  (is_Ok r = false /\ mgr st' = mgr st)
  \/ (is_Ok r = false /\ entries (mgr st') = ∅)
  \/ ((exists e, r = Err e /\ auto_compaction_error e)
      /\ index_live (entries (mgr st')))
  \/ (r = Ok tt /\ index_live (entries (mgr st'))).
Proof.
  unfold load. unfold bind at 1.
  destruct (Flush st) as [[[]|e] st1] eqn:Hfl.
  2:{ intros ?; simplify_eq. left. split; [done|].
      by apply Flush_run in Hfl as [_ ->]. }
  clear Hfl. unfold bind at 1. unfold modify at 1. cbv beta iota.
  set (st2 := mkSt (set_entries ∅ (mgr st1)) (store st1) (calls st1)).
  unfold bind at 1, wrap at 1, call at 1.
  destruct (ListBlocks manifestBlockPrefix (store st2)) as [[blocks|e] s3].
  2:{ intros ?; simplify_eq. right; left. done. }
  cbv beta iota.
  set (st3 := mkSt (mgr st2) s3 (calls st2 ++ [CallListBlocks manifestBlockPrefix])).
  unfold bind at 1, wrap at 1.
  destruct (loadManifestBlocks sched blocks st3) as [rl st4] eqn:Hl.
  apply loadManifestBlocks_run in Hl as [[Hr He]|[-> Hlive]].
  { destruct rl; [discriminate Hr|]. intros ?; simplify_eq.
    right; left. done. }
  destruct (_ <? _)%nat.
  2:{ unfold ret. intros ?; simplify_eq. do 3 right. done. }
  unfold bind, wrap.
  destruct (compactLocked st4) as [[[]|e] st5] eqn:Hc;
    apply compactLocked_entries in Hc.
  2:{ intros ?; simplify_eq. right; right; left.
      rewrite Hc. split; [|done]. eexists. split; [done|].
      eexists; by left. }
  unfold call. destruct (FlushBlocks (store st5)) as [[[]|e] s6];
    intros ?; simplify_eq; simpl; rewrite Hc.
  - do 3 right. done.
  - right; right; left. split; [|done]. eexists. split; [done|].
    eexists; by right.
Qed.

Lemma Put_run labels env st r st' :
  Put labels env st = (r, st') ->
  (is_Ok r = false /\ st' = st)
  \/ exists e,
       is_Ok r = true /\ Deleted e = false
       /\ mgr st' = mkManager (<[ID e := e]> (entries (mgr st)))
                      (blockIDs (mgr st)) (pendingEntries (mgr st) ++ [e]).
Proof.
  unfold Put. destruct (decide _).
  { unfold fail. intros ?; simplify_eq. by left. }
  unfold_op.
  destruct (rand_Read env) as [random|]; simpl;
    [|intros ?; simplify_eq; by left].
  destruct (json_Marshal env) as [b|]; simpl;
    [|intros ?; simplify_eq; by left].
  intros ?; simplify_eq. right.
  exists (mkEntry (hex_EncodeToString random) (time_Now env)
                  (copyLabels labels) false b).
  repeat split; reflexivity.
Qed.

Lemma GetRaw_keeps id st r st' : GetRaw id st = (r, st') -> st' = st.
Proof.
  unfold GetRaw. unfold_op.
  destruct (entries (mgr st) !! id); intros ?; by simplify_eq.
Qed.

Lemma GetMetadata_keeps id st r st' :
  GetMetadata id st = (r, st') -> st' = st.
Proof.
  unfold GetMetadata. unfold_op.
  destruct (entries (mgr st) !! id); intros ?; by simplify_eq.
Qed.

Lemma Get_keeps id unmarshal st r st' :
  Get id unmarshal st = (r, st') -> st' = st.
Proof.
  unfold Get. unfold bind.
  destruct (GetRaw id st) as [[b|e] st1] eqn:Hg;
    apply GetRaw_keeps in Hg as ->.
  - unfold wrap, liftR. destruct (unmarshal b); intros ?; by simplify_eq.
  - intros ?; by simplify_eq.
Qed.
End LoadLemmas.

(** ** Failures *)

(** C3, as the code has it: when [load] fails before its automatic
    compaction on a manager whose index is empty (as it is in [NewManager],
    its only caller), the index is left equal to the index on entry; a
    failing [Flush] leaves the manager as it was, and a failing [Put],
    [GetMetadata], [GetRaw] or [Get] leaves the whole state as it was. *)
Theorem failing_operation_state {S : Type} {bm : BlockManager S}
    {codec : Codec} (st : St S) :
  (forall sched e st',
     load sched st = (Err e, st') ->
     entries (mgr st) = ∅ ->
     ~ auto_compaction_error e ->
     entries (mgr st') = entries (mgr st))
  /\ (forall e st', Flush st = (Err e, st') -> mgr st' = mgr st)
  /\ (forall labels env e st', Put labels env st = (Err e, st') -> st' = st)
  /\ (forall id e st', GetMetadata id st = (Err e, st') -> st' = st)
  /\ (forall id e st', GetRaw id st = (Err e, st') -> st' = st)
  /\ (forall id unmarshal e st',
        Get id unmarshal st = (Err e, st') -> st' = st).
Proof.
  repeat split.
  - intros sched e st' Hrun Hempty Hstage.
    apply load_run in Hrun as [[_ ->]|[[_ ->]|[[(e' & He & Hauto) _]|[He _]]]];
      [done|done| |discriminate He].
    by simplify_eq.
  - intros e st' Hrun. by apply Flush_run in Hrun as [_ ->].
  - intros labels env e st' Hrun.
    by apply Put_run in Hrun as [[_ ->]|(e' & Hok & _)].
  - intros id e st'. apply GetMetadata_keeps.
  - intros id e st'. apply GetRaw_keeps.
  - intros id unmarshal e st'. apply Get_keeps.
Qed.

Lemma failing_operation_state_witness :
  entries (mgr (load (codec := StubCodec []) [] fresh_cancelled).2)
  = entries (mgr fresh_cancelled).
Proof.
  destruct (failing_operation_state (codec := StubCodec []) fresh_cancelled)
    as [Hload _].
  apply (Hload []
           (Errorf "unable to list manifest blocks: %v" [] mem_cancelled)).
  - vm_compute. reflexivity.
  - reflexivity.
  - intros [cause [H|H]]; discriminate H.
Defined.

(** C3 as stated fails.  A [load] that cannot list the blocks leaves the
    index empty, not as it was; a [Compact] whose write fails leaves the
    entries of the index in the pending entries; and a [NewManager] over
    seventeen blocks whose automatic compaction fails ends with a filled
    index. *)
Lemma failing_operation_counterexample :
  (let run := load (codec := StubCodec []) []
                (mem_state manager_one [] (Some 0%nat)) in
   run.1 = Err (Errorf "unable to list manifest blocks: %v" [] mem_cancelled)
   /\ entries (mgr run.2) = ∅
   /\ entries manager_one !! "ab" = Some entry_v1)
  /\ (let run := Compact (codec := StubCodec [])
                   (mem_state manager_two [] (Some 0%nat)) in
      run.1 = Err mem_cancelled
      /\ pendingEntries manager_two = []
      /\ pendingEntries (mgr run.2) = [entry_v1])
  /\ (let run := NewManager
                   (codec := StubCodec [(doc_ab, mkManifest [entry_v1])]) []
                   (mkMem seventeen_blocks (Some 18%nat)) in
      run.1 = Err (Errorf "unable to compact manifest blocks: %v" []
                     mem_cancelled)
      /\ entries (mgr run.2) !! "ab" = Some entry_v1).
Proof. repeat split; vm_compute; reflexivity. Qed.

(** ** The index invariant *)

(** C9: in every state reached by a successful [NewManager] followed by any
    public operations, whatever happens to the block store in between, no
    entry of the index is marked deleted. *)
Theorem index_never_holds_tombstone {S : Type} {bm : BlockManager S}
    {codec : Codec} (st : St S) :
  reachable st -> index_live (entries (mgr st)).
Proof.
  induction 1 as [sched b st Hnew|o st Hreach IH|st b' cs Hreach IH].
  - unfold NewManager in Hnew.
    apply load_run in Hnew
      as [[He _]|[[He _]|[[(e & He & _) _]|[_ Hlive]]]]; by simplify_eq.
  - destruct o as [labels env|id unmarshal|id|id|labels|id now| |]; simpl.
    + destruct (Put labels env st) as [r st'] eqn:Hrun. simpl.
      apply Put_run in Hrun as [[_ ->]|(e & _ & Hd & ->)]; [done|].
      simpl. by apply map_Forall_insert_2.
    + destruct (Get id unmarshal st) as [r st'] eqn:Hrun.
      by apply Get_keeps in Hrun as ->.
    + destruct (GetMetadata id st) as [r st'] eqn:Hrun.
      by apply GetMetadata_keeps in Hrun as ->.
    + destruct (GetRaw id st) as [r st'] eqn:Hrun.
      by apply GetRaw_keeps in Hrun as ->.
    + done.
    + unfold Delete. unfold_op.
      destruct (entries (mgr st) !! id); simpl; [|done].
      by apply map_Forall_delete.
    + destruct (Flush st) as [r st'] eqn:Hrun.
      apply Flush_run in Hrun as [He _]. simpl. by rewrite He.
    + destruct (Compact st) as [r st'] eqn:Hrun.
      apply compactLocked_entries in Hrun. simpl. by rewrite Hrun.
  - done.
Qed.

Lemma index_never_holds_tombstone_witness :
  index_live
    (entries (mgr
       (run_op (codec := StubCodec []) (OpDelete "abcd" 40)
          (run_op (codec := StubCodec [])
             (OpPut {[ "type" := "snap" ]} put_env)
             (NewManager (codec := StubCodec []) [] (mkMem [] None)).2)))).
Proof.
  apply (index_never_holds_tombstone (codec := StubCodec [])).
  do 2 apply reachable_op.
  apply (reachable_new (codec := StubCodec []) [] (mkMem [] None)).
  vm_compute. reflexivity.
Defined.

(** ** Runs on the in-memory store *)

Lemma Compact_one_block_same_index_witness :
  length (blockIDs (mgr (Compact (codec := StubCodec []) state_two).2)) = 1%nat
  /\ entries (mgr (Compact (codec := StubCodec []) state_two).2)
     = entries (mgr state_two).
Proof.
  apply (Compact_one_block_same_index (codec := StubCodec []) state_two).
  vm_compute. reflexivity.
Defined.

Lemma compactLocked_spares_written_block_witness :
  CallDeleteBlock block_ab
    ∉ calls (compactLocked (codec := StubCodec []) state_rewrite).2.
Proof.
  destruct (compactLocked_spares_written_block (codec := StubCodec [])
              state_rewrite
              (compactLocked (codec := StubCodec []) state_rewrite).1
              (compactLocked (codec := StubCodec []) state_rewrite).2)
    as (written & invoked & Hc & Hw & _ & HB).
  { vm_compute. reflexivity. }
  destruct (HB block_ab
              (flushPendingEntriesLocked (codec := StubCodec [])
                 (compact_stage state_rewrite)).2) as [Hnot _].
  { vm_compute. reflexivity. }
  rewrite Hc. simpl. intros Hin.
  apply elem_of_app in Hin as [Hin|Hin].
  - destruct Hw as [->|[buf ->]].
    + by apply elem_of_nil in Hin.
    + apply list_elem_of_singleton in Hin. discriminate Hin.
  - apply list_elem_of_fmap in Hin as (b & [= <-] & Hb). by apply Hnot.
Defined.

Lemma Compact_empty_manager_witness :
  blockIDs (mgr (Compact (codec := StubCodec []) state_empty).2) = [""].
Proof.
  destruct (Compact_empty_manager (codec := StubCodec []) state_empty
              (Compact (codec := StubCodec []) state_empty).2)
    as (cs & _ & _ & _ & H).
  - reflexivity.
  - reflexivity.
  - simpl. lia.
  - vm_compute. reflexivity.
  - exact H.
Defined.

Lemma loadManifestBlock_format_witness :
  names_block
    (Errorf "unable to unpack block %q: %v" ["m00"]
       (ErrExternal "gzip: invalid header"))
    "m00".
Proof.
  destruct (loadManifestBlock_format (codec := StubCodec []) "m00" store_braces)
    as (_ & _ & H).
  apply H. vm_compute. reflexivity.
Defined.

(** ** More on merging *)

Section MergeMore.
Implicit Types (idx : gmap string manifestEntry) (e w : manifestEntry).

Lemma mergeEntries_snoc idx es e :
  mergeEntries idx (es ++ [e]) = mergeEntry (mergeEntries idx es) e.
Proof. unfold mergeEntries. by rewrite foldl_app. Qed.

(** What the merged index holds under a key: an entry of greatest
    modification time among the incumbent and the arrivals with that
    identifier. *)
Lemma mergeEntries_lookup_max es :
  forall idx k,
    match mergeEntries idx es !! k with
    | None => idx !! k = None /\ forall e, e ∈ es -> ID e <> k
    | Some w =>
        (idx !! k = Some w \/ (w ∈ es /\ ID w = k))
        /\ (forall p, idx !! k = Some p -> ModTime p <= ModTime w)
        /\ (forall e, e ∈ es -> ID e = k -> ModTime e <= ModTime w)
    end.
Proof.
  induction es as [|x es IH]; intros idx k; simpl.
  - destruct (idx !! k) as [w|] eqn:Hk.
    + split; [by left|]. split; [by intros p [= ->]|].
      by intros e ?%elem_of_nil.
    + split; [done|]. by intros e ?%elem_of_nil.
  - specialize (IH (mergeEntry idx x) k). fold (mergeEntries (mergeEntry idx x) es).
    rewrite mergeEntry_lookup in IH. unfold time_After in IH.
    destruct (mergeEntries (mergeEntry idx x) es !! k) as [w|].
    + destruct IH as (Hw & Hp & Hes).
      destruct (decide (ID x = k)) as [Hx|Hx].
      * destruct (idx !! k) as [p|] eqn:Hk.
        -- destruct (Z.ltb_spec (ModTime p) (ModTime x)) as [Hlt|Hle].
           ++ specialize (Hp _ eq_refl). split; [|split].
              ** destruct Hw as [[= <-]|[Hin Hid]]; right;
                   (split; [by constructor|done]) || (split; [by right|done]).
              ** intros p' [= <-]. lia.
              ** intros e [->|He]%elem_of_cons Hid; [done|by apply Hes].
           ++ specialize (Hp _ eq_refl). split; [|split].
              ** destruct Hw as [[= <-]|[Hin Hid]]; [by left|].
                 right. split; [by right|done].
              ** by intros p' [= <-].
              ** intros e [->|He]%elem_of_cons Hid; [lia|by apply Hes].
        -- specialize (Hp _ eq_refl). split; [|split].
           ** destruct Hw as [[= <-]|[Hin Hid]]; right;
                (split; [by constructor|done]) || (split; [by right|done]).
           ** by intros p' [=].
           ** intros e [->|He]%elem_of_cons Hid; [done|by apply Hes].
      * split; [|split].
        -- destruct Hw as [Hw|[Hin Hid]]; [by left|].
           right. split; [by right|done].
        -- done.
        -- intros e [->|He]%elem_of_cons Hid; [done|by apply Hes].
    + destruct IH as [Hnone Hes].
      destruct (decide (ID x = k)) as [Hx|Hx].
      * destruct (idx !! k) as [p|]; [destruct (_ <? _)|]; discriminate Hnone.
      * split; [done|].
        intros e [->|He]%elem_of_cons; [done|by apply Hes].
Qed.

Lemma mergeEntry_keys_agree idx e :
  keys_agree idx -> keys_agree (mergeEntry idx e).
Proof.
  intros H k w. rewrite mergeEntry_lookup.
  destruct (decide (ID e = k)) as [<-|Hk]; [|apply H].
  destruct (idx !! ID e) as [p|] eqn:Hp.
  - destruct (time_After _ _); intros [= <-]; [done|by apply (H _ _ Hp)].
  - by intros [= <-].
Qed.

Lemma mergeEntries_keys_agree es :
  forall idx, keys_agree idx -> keys_agree (mergeEntries idx es).
Proof.
  induction es as [|e es IH]; intros idx H; simpl; [done|].
  by apply IH, mergeEntry_keys_agree.
Qed.

Lemma removeDeleted_lookup idx k :
  removeDeleted idx !! k =
    match idx !! k with
    | Some e => if Deleted e then None else Some e
    | None => None
    end.
Proof.
  unfold removeDeleted. destruct (idx !! k) as [e|] eqn:Hk.
  - destruct (Deleted e) eqn:Hd.
    + apply map_lookup_filter_None. right. intros e' Hk'. simpl.
      rewrite Hk in Hk'. injection Hk' as <-. by rewrite Hd.
    + apply map_lookup_filter_Some. done.
  - apply map_lookup_filter_None. by left.
Qed.

Lemma removeDeleted_keys_agree idx :
  keys_agree idx -> keys_agree (removeDeleted idx).
Proof.
  intros H k e. rewrite removeDeleted_lookup.
  destruct (idx !! k) as [w|] eqn:Hk; [|done].
  destruct (Deleted w); [done|]. intros [= <-]. by apply (H _ _ Hk).
Qed.
End MergeMore.

(** X1: the index merged from the manifests of a load holds, under each
    identifier that occurs in them, one of their entries with that
    identifier whose modification time no other such entry exceeds, and
    holds nothing under an identifier that does not occur. *)
Theorem mergeManifests_latest_wins (mans : list manifest) (k : string) :
  (mergeManifests ∅ mans !! k = None <->
     forall e, e ∈ all_entries mans -> ID e <> k)
  /\ (forall w, mergeManifests ∅ mans !! k = Some w ->
        w ∈ all_entries mans /\ ID w = k
        /\ forall e, e ∈ all_entries mans -> ID e = k ->
             ModTime e <= ModTime w).
Proof.
  rewrite mergeManifests_flat.
  pose proof (mergeEntries_lookup_max (all_entries mans) ∅ k) as H.
  destruct (mergeEntries ∅ (all_entries mans) !! k) as [w|].
  - destruct H as ([Hw|[Hin Hid]] & _ & Hmax);
      [by rewrite lookup_empty in Hw|].
    split.
    + split; [done|]. intros Hno. by destruct (Hno w Hin).
    + by intros w' [= <-].
  - destruct H as [_ Hno]. split; [done|]. by intros w [=].
Qed.

(** X2: an entry that is strictly newer than every other loaded entry with
    its identifier decides that identifier, wherever it stands among the
    blocks: after the removal of tombstones the index holds it when it is
    live and holds nothing under its identifier when it is a tombstone. *)
Theorem strictly_newest_entry_decides (mans : list manifest)
    (x : manifestEntry) :
  x ∈ all_entries mans ->
  (forall e, e ∈ all_entries mans -> ID e = ID x ->
     e = x \/ ModTime e < ModTime x) ->
  removeDeleted (mergeManifests ∅ mans) !! ID x
  = if Deleted x then None else Some x.
Proof.
  intros Hx Hnew. rewrite removeDeleted_lookup, mergeManifests_flat.
  pose proof (mergeEntries_lookup_max (all_entries mans) ∅ (ID x)) as H.
  destruct (mergeEntries ∅ (all_entries mans) !! ID x) as [w|].
  - destruct H as ([Hw|[Hin Hid]] & _ & Hmax);
      [by rewrite lookup_empty in Hw|].
    destruct (Hnew w Hin Hid) as [->|Hlt]; [done|].
    specialize (Hmax x Hx eq_refl). lia.
  - destruct H as [_ Hno]. by destruct (Hno x Hx).
Qed.

Lemma strictly_newest_entry_decides_witness :
  removeDeleted
    (mergeManifests ∅ [mkManifest [tombstone_v1]; mkManifest [entry_v2]])
    !! "ab" = Some entry_v2.
Proof.
  apply (strictly_newest_entry_decides
           [mkManifest [tombstone_v1]; mkManifest [entry_v2]] entry_v2).
  - simpl. right. left.
  - simpl. intros e [->|He]%elem_of_cons _.
    + right. simpl. lia.
    + apply list_elem_of_singleton in He as ->. by left.
Defined.

Section Remerge.
Implicit Types (idx : gmap string manifestEntry).

Lemma mergeEntries_covered es :
  forall idx,
    (forall e, e ∈ es ->
       exists p, idx !! ID e = Some p /\ ModTime e <= ModTime p) ->
    mergeEntries idx es = idx.
Proof.
  induction es as [|x es IH]; intros idx H; simpl; [done|].
  destruct (H x) as (p & Hp & Hle); [by left|].
  assert (mergeEntry idx x = idx) as ->.
  { unfold mergeEntry, time_After. rewrite Hp.
    destruct (Z.ltb_spec (ModTime p) (ModTime x)); [lia|done]. }
  apply IH. intros e He. apply H. by right.
Qed.
End Remerge.

(** X3: merging again entries that were already merged changes nothing: a
    block met a second time, or a block that repeats entries of the blocks
    merged before it, leaves the index as it is. *)
Theorem remerge_changes_nothing (idx : gmap string manifestEntry)
    (mans mans' : list manifest) :
  all_entries mans' ⊆ all_entries mans ->
  mergeManifests (mergeManifests idx mans) mans' = mergeManifests idx mans.
Proof.
  intros Hsub. rewrite (mergeManifests_flat mans').
  apply mergeEntries_covered. intros e He. apply Hsub in He.
  rewrite mergeManifests_flat.
  pose proof (mergeEntries_lookup_max (all_entries mans) idx (ID e)) as H.
  destruct (mergeEntries idx (all_entries mans) !! ID e) as [w|].
  - destruct H as (_ & _ & Hmax). exists w. split; [done|]. by apply Hmax.
  - destruct H as [_ Hno]. by destruct (Hno e He).
Qed.

Lemma remerge_changes_nothing_witness :
  mergeManifests
    (mergeManifests ∅ [mkManifest [entry_v1]; mkManifest [entry_v2]])
    [mkManifest [entry_v1]]
  = mergeManifests ∅ [mkManifest [entry_v1]; mkManifest [entry_v2]].
Proof.
  apply (remerge_changes_nothing ∅
           [mkManifest [entry_v1]; mkManifest [entry_v2]]
           [mkManifest [entry_v1]]).
  simpl. intros e He. apply list_elem_of_singleton in He as ->. by left.
Defined.

(** ** Put, Delete and the lookups *)

Section InMemory.
Context {S : Type} {bm : BlockManager S} {codec : Codec}.
Implicit Types (st : St S).

Lemma Put_success labels env st id st' :
  Put labels env st = (Ok id, st') ->
  exists random b,
    label_at labels "type" <> ""
    /\ rand_Read env = Ok random /\ json_Marshal env = Ok b
    /\ id = hex_EncodeToString random
    /\ st' = mkSt (mkManager
                     (<[id := mkEntry id (time_Now env) labels false b]>
                        (entries (mgr st)))
                     (blockIDs (mgr st))
                     (pendingEntries (mgr st)
                        ++ [mkEntry id (time_Now env) labels false b]))
                  (store st) (calls st).
Proof.
  unfold Put. destruct (decide _) as [|Hty]; [by intros [=]|].
  unfold_op.
  destruct (rand_Read env) as [random|]; simpl; [|by intros [=]].
  destruct (json_Marshal env) as [b|]; simpl; [|by intros [=]].
  rewrite copyLabels_id. intros ?; simplify_eq. exists random, b. done.
Qed.

Lemma Find_elem (m : Manager) (Q : gmap string string) (md : EntryMetadata) :
  md ∈ Find m Q <->
  exists k e, entries m !! k = Some e
    /\ matchesLabels (Labels e) Q = true
    /\ md = mkMetadata (ID e) (length (Content e)) (Labels e) (ModTime e).
Proof.
  unfold Find. rewrite sort_Slice_perm, list_elem_of_fmap. split.
  - intros (e & -> & He). apply list_elem_of_filter in He as [Hm He].
    apply list_elem_of_fmap in He as ([k e'] & -> & Hk).
    apply elem_of_map_to_list in Hk. exists k, e'.
    unfold cloneEntryMetadata. by rewrite copyLabels_id.
  - intros (k & e & Hk & Hm & ->). exists e. split.
    + unfold cloneEntryMetadata. by rewrite copyLabels_id.
    + apply list_elem_of_filter. split; [done|].
      apply list_elem_of_fmap. exists (k, e). split; [done|].
      by apply elem_of_map_to_list.
Qed.

Lemma matchesLabels_refl (a : gmap string string) : matchesLabels a a = true.
Proof.
  apply matchesLabels_spec. intros k v Hk. unfold label_at. by rewrite Hk.
Qed.
End InMemory.

(** X4: [Put] succeeds exactly when the label [type] is present with a
    non-empty value and both the random source and the serialization of the
    payload succeed; a missing or empty [type] label is refused with the
    error ['type' label is required] whatever the rest, and the state is left
    as it was. *)
Theorem Put_requires_type {S : Type}
    (labels : gmap string string) (env : PutEnv) (st : St S) :
  (is_Ok (Put labels env st).1 = true <->
     (exists v, labels !! "type" = Some v /\ v <> "")
     /\ is_Ok (rand_Read env) = true /\ is_Ok (json_Marshal env) = true)
  /\ (labels !! "type" = None \/ labels !! "type" = Some "" ->
      Put labels env st = (Err (ErrMessage "'type' label is required"), st)).
Proof.
  unfold Put, label_at. split.
  - destruct (labels !! "type") as [v|] eqn:Hty; simpl.
    + destruct (decide (v = "")) as [->|Hv]; simpl.
      * split; [done|]. by intros [(v & [= <-] & Hv) _].
      * unfold_op. destruct (rand_Read env); simpl;
          [destruct (json_Marshal env); simpl|]; split; try done;
          try (intros (_ & ? & ?); done).
        intros _. split; [by exists v|done].
    + split; [done|]. by intros [(v & [=] & _) _].
  - intros [->| ->]; reflexivity.
Qed.

Lemma Put_requires_type_witness :
  Put (S := MemStore) {[ "host" := "a" ]} put_env (mem_state manager_one [] None)
  = (Err (ErrMessage "'type' label is required"),
     mem_state manager_one [] None).
Proof.
  destruct (Put_requires_type (S := MemStore)
              {[ "host" := "a" ]} put_env (mem_state manager_one [] None))
    as [_ H].
  apply H. left. reflexivity.
Defined.

(** X5: after a successful [Put] that returned [id], [GetRaw id] returns the
    serialized payload, [GetMetadata id] returns the identifier, the labels
    given, the length of the payload and the time of the [Put], and [Find]
    with those same labels returns that metadata. *)
Theorem Put_read_your_writes {S : Type}
    (labels : gmap string string) (env : PutEnv) (st st' : St S)
    (id : string) :
  Put labels env st = (Ok id, st') ->
  exists b,
    json_Marshal env = Ok b
    /\ GetRaw id st' = (Ok b, st')
    /\ GetMetadata id st'
       = (Ok (mkMetadata id (length b) labels (time_Now env)), st')
    /\ mkMetadata id (length b) labels (time_Now env) ∈ Find (mgr st') labels.
Proof.
  intros Hput. apply Put_success in Hput as (random & b & _ & _ & Hb & _ & ->).
  exists b. split; [done|].
  unfold GetRaw, GetMetadata. unfold_op. simpl.
  rewrite lookup_insert_eq. simpl. rewrite copyLabels_id.
  split; [done|]. split; [done|].
  apply Find_elem. eexists id, _. simpl. rewrite lookup_insert_eq.
  split; [done|]. split; [apply matchesLabels_refl|done].
Qed.

Lemma Put_read_your_writes_witness :
  exists b,
    json_Marshal put_env = Ok b
    /\ GetRaw (S := MemStore) "abcd"
         (Put (S := MemStore) {[ "type" := "snap" ]} put_env
            (mem_state manager_one [] None)).2
       = (Ok b, (Put (S := MemStore) {[ "type" := "snap" ]} put_env
                   (mem_state manager_one [] None)).2).
Proof.
  destruct (Put_read_your_writes (S := MemStore)
              {[ "type" := "snap" ]} put_env (mem_state manager_one [] None)
              (Put (S := MemStore) {[ "type" := "snap" ]} put_env
                 (mem_state manager_one [] None)).2 "abcd")
    as (b & Hb & Hraw & _).
  - vm_compute. reflexivity.
  - exists b. split; [exact Hb | exact Hraw].
Defined.

(** X6: a successful [Put] touches nothing but its own entry: every other
    identifier of the index keeps what it had, the pending entries gain the
    new entry at the end and nothing else, the known blocks are unchanged,
    and the block manager receives no call. *)
Theorem Put_frame {S : Type}
    (labels : gmap string string) (env : PutEnv) (st st' : St S)
    (id : string) :
  Put labels env st = (Ok id, st') ->
  (forall k, k <> id -> entries (mgr st') !! k = entries (mgr st) !! k)
  /\ (exists e, ID e = id /\ Deleted e = false
        /\ entries (mgr st') !! id = Some e
        /\ pendingEntries (mgr st') = pendingEntries (mgr st) ++ [e])
  /\ blockIDs (mgr st') = blockIDs (mgr st)
  /\ store st' = store st
  /\ calls st' = calls st.
Proof.
  intros Hput. apply Put_success in Hput as (random & b & _ & _ & _ & _ & ->).
  simpl. split; [|split].
  - intros k Hk. by rewrite lookup_insert_ne.
  - eexists. rewrite lookup_insert_eq. repeat split; reflexivity.
  - done.
Qed.

Lemma Put_frame_witness :
  entries (mgr (Put (S := MemStore) {[ "type" := "snap" ]} put_env
                  (mem_state manager_one [] None)).2) !! "ab"
  = Some entry_v1.
Proof.
  destruct (Put_frame (S := MemStore)
              {[ "type" := "snap" ]} put_env (mem_state manager_one [] None)
              (Put (S := MemStore) {[ "type" := "snap" ]} put_env
                 (mem_state manager_one [] None)).2 "abcd")
    as (Hother & _).
  - vm_compute. reflexivity.
  - rewrite Hother; [reflexivity | discriminate].
Defined.

(** ** Identifiers *)

Section Hex.
Local Open Scope N_scope.

Lemma hex_digit_inj (n m : N) :
  n < 16 -> m < 16 -> hex_digit n = hex_digit m -> n = m.
Proof.
  intros Hn Hm.
  assert (Hcase : forall k, k < 16 ->
            k = 0 \/ k = 1 \/ k = 2 \/ k = 3 \/ k = 4 \/ k = 5 \/ k = 6
            \/ k = 7 \/ k = 8 \/ k = 9 \/ k = 10 \/ k = 11 \/ k = 12
            \/ k = 13 \/ k = 14 \/ k = 15) by (intros; lia).
  apply Hcase in Hn, Hm.
  repeat (destruct Hn as [Hn|Hn]); subst n;
    repeat (destruct Hm as [Hm|Hm]); subst m;
    intros H; try reflexivity; vm_compute in H; discriminate H.
Qed.

Lemma to_N_inj (a b : byte) : Byte.to_N a = Byte.to_N b -> a = b.
Proof.
  intros H. apply (f_equal Byte.of_N) in H.
  rewrite !Byte.of_to_N in H. by injection H.
Qed.

Lemma hex_pair_inj (a b : byte) :
  hex_digit (Byte.to_N a / 16) = hex_digit (Byte.to_N b / 16) ->
  hex_digit (Byte.to_N a mod 16) = hex_digit (Byte.to_N b mod 16) ->
  a = b.
Proof.
  intros Hq Hr. apply to_N_inj.
  pose proof (Byte.to_N_bounded a). pose proof (Byte.to_N_bounded b).
  apply hex_digit_inj in Hq;
    [|apply N.Div0.div_lt_upper_bound; lia|apply N.Div0.div_lt_upper_bound; lia].
  apply hex_digit_inj in Hr; [|by apply N.mod_lt|by apply N.mod_lt].
  rewrite (N.div_mod (Byte.to_N a) 16), (N.div_mod (Byte.to_N b) 16) by lia.
  by rewrite Hq, Hr.
Qed.

Lemma String_get_elem (s : string) :
  forall i c, String.get i s = Some c -> c ∈ list_ascii_of_string s.
Proof.
  induction s as [|a s IH]; intros i c; simpl; [done|].
  destruct i as [|i].
  - intros [= ->]. by left.
  - intros H. right. by eapply IH.
Qed.

Lemma hex_digit_alphabet (n : N) :
  hex_digit n ∈ list_ascii_of_string "0123456789abcdef".
Proof.
  unfold hex_digit.
  destruct (String.get _ _) as [c|] eqn:Hc.
  - by eapply String_get_elem.
  - by left.
Qed.
End Hex.

(** X7: the identifier that [Put] derives from its random bytes has two
    characters per byte (32 for the 16 bytes read), all of them among
    [0123456789abcdef], and different byte sequences give different
    identifiers. *)
Theorem hex_EncodeToString_identifier (bs : list byte) :
  String.length (hex_EncodeToString bs) = (2 * length bs)%nat
  /\ Forall (fun c => c ∈ list_ascii_of_string "0123456789abcdef")
            (list_ascii_of_string (hex_EncodeToString bs))
  /\ (forall bs', hex_EncodeToString bs = hex_EncodeToString bs' -> bs = bs').
Proof.
  split; [|split].
  - induction bs as [|b bs IH]; simpl; [done|]. rewrite IH. lia.
  - induction bs as [|b bs IH]; simpl; [constructor|].
    constructor; [apply hex_digit_alphabet|].
    constructor; [apply hex_digit_alphabet|exact IH].
  - induction bs as [|b bs IH]; intros [|b' bs']; simpl; try done.
    intros [= Hq Hr Hrest]. f_equal; [by apply hex_pair_inj|by apply IH].
Qed.

(** ** Delete *)

(** X8: [Delete] never fails and never calls the block manager.  On an
    identifier the index does not hold it changes nothing at all; on one it
    holds it removes that identifier alone from the index and appends one
    tombstone for it, with the time of the call, to the pending entries.
    Either way the identifier is not found afterwards. *)
Theorem Delete_outcome {S : Type} (id : string) (now : Time) (st : St S) :
  let st' := (Delete id now st).2 in
  (Delete id now st).1 = Ok tt
  /\ blockIDs (mgr st') = blockIDs (mgr st)
  /\ store st' = store st /\ calls st' = calls st
  /\ (entries (mgr st) !! id = None -> st' = st)
  /\ (forall e, entries (mgr st) !! id = Some e ->
        entries (mgr st') = delete id (entries (mgr st))
        /\ pendingEntries (mgr st')
           = pendingEntries (mgr st) ++ [mkEntry id now ∅ true []])
  /\ GetMetadata id st' = (Err ErrNotFound, st')
  /\ GetRaw id st' = (Err ErrNotFound, st').
Proof.
  unfold Delete, GetMetadata, GetRaw. unfold_op.
  destruct (entries (mgr st) !! id) as [e|] eqn:He; simpl.
  - rewrite lookup_delete_eq. repeat split; done.
  - rewrite He. repeat split; done.
Qed.

(** X9: on an index whose entries are stored under their own identifiers,
    no query of [Find] returns the identifier that [Delete] was called on. *)
Theorem Delete_hides_from_Find {S : Type} (id : string) (now : Time)
    (st : St S) (Q : gmap string string) (md : EntryMetadata) :
  keys_agree (entries (mgr st)) ->
  md ∈ Find (mgr (Delete id now st).2) Q ->
  md_ID md <> id.
Proof.
  intros Hkeys Hin. apply Find_elem in Hin as (k & e & Hk & _ & ->). simpl.
  revert Hk. unfold Delete. unfold_op.
  destruct (entries (mgr st) !! id) as [e0|] eqn:He; simpl.
  - intros Hk. destruct (decide (k = id)) as [->|Hne].
    + by rewrite lookup_delete_eq in Hk.
    + rewrite lookup_delete_ne in Hk by done.
      by rewrite (Hkeys _ _ Hk).
  - intros Hk Hid. apply Hkeys in Hk as Hk'. congruence.
Qed.

Lemma Delete_hides_from_Find_witness :
  Forall (fun md => md_ID md <> "ab")
    (Find (mgr (Delete "ab" 50 (mem_state manager_two [] None)).2) ∅).
Proof.
  apply Forall_forall. intros md.
  apply (Delete_hides_from_Find "ab" 50 (mem_state manager_two [] None) ∅ md).
  intros k e. simpl. intros [<- <-]%lookup_singleton_Some. reflexivity.
Defined.

(** X10: in the index, an identifier is found by [GetMetadata] exactly when
    it is found by [GetRaw], the length in the metadata is the length of the
    raw content, and an identifier that is not there is reported by all of
    [GetMetadata], [GetRaw] and [Get] with [ErrNotFound] itself, not wrapped;
    [Get] wraps only a failure to deserialize, naming the identifier.  None
    of the three changes the state. *)
Theorem lookups_agree {S : Type} (id : string)
    (unmarshal : list byte -> result unit) (st : St S) :
  match entries (mgr st) !! id with
  | None =>
      GetMetadata id st = (Err ErrNotFound, st)
      /\ GetRaw id st = (Err ErrNotFound, st)
      /\ Get id unmarshal st = (Err ErrNotFound, st)
  | Some e =>
      GetRaw id st = (Ok (Content e), st)
      /\ GetMetadata id st
         = (Ok (mkMetadata id (length (Content e)) (Labels e) (ModTime e)), st)
      /\ Get id unmarshal st
         = (match unmarshal (Content e) with
            | Ok _ => Ok tt
            | Err x => Err (Errorf "unable to unmashal %q: %v" [id] x)
            end, st)
  end.
Proof.
  unfold Get, GetMetadata, GetRaw. unfold_op.
  destruct (entries (mgr st) !! id) as [e|]; simpl; [|done].
  rewrite copyLabels_id. repeat split.
  by destruct (unmarshal (Content e)) as [[]|].
Qed.

(** ** More on Flush *)

(** X11: a [Flush] with nothing pending succeeds without touching the state
    or the block manager, and so does a [Flush] that follows a successful
    [Flush]: flushing twice writes at most one block. *)
Theorem Flush_idempotent {S : Type} {bm : BlockManager S} {codec : Codec}
    (st : St S) :
  (pendingEntries (mgr st) = [] -> Flush st = (Ok tt, st))
  /\ (forall st', Flush st = (Ok tt, st') -> Flush st' = (Ok tt, st')).
Proof.
  assert (Hempty : forall s : St S,
            pendingEntries (mgr s) = [] -> Flush s = (Ok tt, s)).
  { intros s Hp. unfold Flush, flushPendingEntriesLocked. unfold_op.
    rewrite Hp. simpl. reflexivity. }
  split; [apply Hempty|].
  intros st' Hrun. apply Hempty.
  revert Hrun. unfold Flush, bind.
  destruct (flushPendingEntriesLocked st) as [r0 st0] eqn:Hf.
  apply flushPendingEntriesLocked_outcome in Hf
    as [(Hp & -> & ->)|[(Hp & buf & h & -> & Hm & Hc)|(Hp & [e ->] & Hm & Hc)]].
  - simpl. unfold ret. intros ?; by simplify_eq.
  - destruct (decide _) as [Heq|_]; [discriminate Heq|].
    unfold modify. intros ?; simplify_eq. simpl. by rewrite Hm.
  - intros [=].
Qed.

Lemma Flush_idempotent_witness :
  Flush (codec := StubCodec [])
    (Flush (codec := StubCodec []) (mem_state manager_pending [] None)).2
  = (Ok tt,
     (Flush (codec := StubCodec []) (mem_state manager_pending [] None)).2).
Proof.
  destruct (Flush_idempotent (codec := StubCodec [])
              (mem_state manager_pending [] None)) as [_ H].
  apply H. vm_compute. reflexivity.
Defined.

(** X12: a successful [Flush] of pending entries makes exactly one call,
    a [WriteBlock] under the prefix [m] of the gzip form of the JSON document
    of the pending entries in their order, and appends to the known blocks
    the identifier that this call returned. *)
Theorem Flush_writes_pending {S : Type} {bm : BlockManager S} {codec : Codec}
    (st st' : St S) :
  Flush st = (Ok tt, st') ->
  pendingEntries (mgr st) <> [] ->
  exists js buf id,
    json_Encode (mkManifest (pendingEntries (mgr st))) = Ok js
    /\ gzip_Close js = Ok buf
    /\ WriteBlock buf manifestBlockPrefix (store st) = (Ok id, store st')
    /\ calls st' = calls st ++ [CallWriteBlock buf manifestBlockPrefix]
    /\ blockIDs (mgr st') = blockIDs (mgr st) ++ [id].
Proof.
  unfold Flush, bind. intros Hrun Hp.
  destruct (flushPendingEntriesLocked st) as [r0 st0] eqn:Hf.
  apply flushPendingEntriesLocked_exact in Hf; [|done].
  destruct Hf as [[-> (cause & H)]|(js & buf & s' & Hj & Hc & Hw & ->)].
  - destruct H as [[_ ->]|(js & _ & [[_ ->]|[_ ->]])]; discriminate Hrun.
  - destruct r0 as [id|e]; [|discriminate Hrun].
    destruct (WriteBlock_prefix _ _ _ _ _ Hw) as [h ->].
    destruct (decide _) as [Heq|_]; [discriminate Heq|].
    unfold modify in Hrun. simplify_eq. simpl. exists js, buf. eauto 10.
Qed.

Lemma Flush_writes_pending_witness :
  exists js buf id,
    json_Encode (Codec := StubCodec []) (mkManifest [entry_v1]) = Ok js
    /\ gzip_Close (Codec := StubCodec []) js = Ok buf
    /\ WriteBlock buf manifestBlockPrefix (mkMem [] None)
       = (Ok id,
          store (Flush (codec := StubCodec [])
                   (mem_state manager_pending [] None)).2).
Proof.
  destruct (Flush_writes_pending (codec := StubCodec [])
              (mem_state manager_pending [] None)
              (Flush (codec := StubCodec [])
                 (mem_state manager_pending [] None)).2)
    as (js & buf & id & Hj & Hc & Hw & _).
  - vm_compute. reflexivity.
  - discriminate.
  - exists js, buf, id. repeat split; assumption.
Defined.

(** X13: a [Flush] that fails has either failed while encoding, in which
    case the error says at which step, nothing was sent to the block manager
    and the whole state is as before; or has failed in its one [WriteBlock],
    in which case the error of the block manager is returned as it is. *)
Theorem Flush_failure {S : Type} {bm : BlockManager S} {codec : Codec}
    (st st' : St S) (e : error) :
  Flush st = (Err e, st') ->
  (st' = st /\
   exists cause,
     e = Errorf "unable to marshal: %v" [] cause
     \/ e = Errorf "unable to flush: %v" [] cause
     \/ e = Errorf "unable to close: %v" [] cause)
  \/ (exists buf s',
        WriteBlock buf manifestBlockPrefix (store st) = (Err e, s')
        /\ st' = mkSt (mgr st) s'
                   (calls st ++ [CallWriteBlock buf manifestBlockPrefix])).
Proof.
  unfold Flush, bind. intros Hrun.
  destruct (flushPendingEntriesLocked st) as [r0 st0] eqn:Hf.
  destruct (decide (pendingEntries (mgr st) = [])) as [Hp|Hp].
  { apply flushPendingEntriesLocked_outcome in Hf
      as [(_ & -> & ->)|[(Hne & _)|(Hne & _)]]; done. }
  apply flushPendingEntriesLocked_exact in Hf; [|done].
  destruct Hf as [[-> (cause & H)]|(js & buf & s' & Hj & Hc & Hw & ->)].
  - left. split.
    + destruct H as [[_ ->]|(js & _ & [[_ ->]|[_ ->]])]; by simplify_eq.
    + exists cause.
      destruct H as [[_ ->]|(js & _ & [[_ ->]|[_ ->]])]; simplify_eq; auto.
  - right. destruct r0 as [id|e0].
    + destruct (decide _); discriminate Hrun.
    + simplify_eq. eauto.
Qed.

Lemma Flush_failure_witness :
  exists buf s',
    WriteBlock buf manifestBlockPrefix (mkMem [] (Some 0%nat))
    = (Err mem_cancelled, s').
Proof.
  destruct (Flush_failure (codec := StubCodec [])
              (mem_state manager_pending [] (Some 0%nat))
              (Flush (codec := StubCodec [])
                 (mem_state manager_pending [] (Some 0%nat))).2
              mem_cancelled) as [[_ (cause & H)]|(buf & s' & Hw & _)].
  - vm_compute. reflexivity.
  - destruct H as [H|[H|H]]; discriminate H.
  - exists buf, s'. exact Hw.
Defined.

(** ** More on compaction *)

Section CompactMore.
Context {S : Type} {bm : BlockManager S} {codec : Codec}.
Implicit Types (st : St S).


Lemma flushPendingEntriesLocked_clears st id st' :
  flushPendingEntriesLocked st = (Ok id, st') ->
  pendingEntries (mgr st') = [].
Proof.
  intros Hf. apply flushPendingEntriesLocked_outcome in Hf
    as [(Hp & _ & ->)|[(_ & buf & h & _ & -> & _)|(_ & [e [=]] & _)]]; done.
Qed.

Lemma filter_ne_snoc (B : ContentID) (ids : list ContentID) :
  filter (fun b => b <> B) (ids ++ [B]) = filter (fun b => b <> B) ids.
Proof.
  rewrite filter_app, (filter_cons_False _ B) by (intros H; by apply H).
  by rewrite filter_nil, app_nil_r.
Qed.
End CompactMore.

(** X14: a [Compact] that follows a successful [Compact] finds one known
    block and nothing pending, returns at once and makes no call. *)
Theorem Compact_idempotent {S : Type} {bm : BlockManager S} {codec : Codec}
    (st st' : St S) :
  Compact st = (Ok tt, st') -> Compact st' = (Ok tt, st').
Proof.
  unfold Compact. intros Hrun.
  assert (Hal : already_compact (mgr st')).
  { destruct (decide (already_compact (mgr st))) as [Hal|Hnot].
    - rewrite compactLocked_unfold in Hrun.
      destruct (decide _); [|done]. by simplify_eq.
    - destruct (compactLocked_run _ _ _ Hrun Hnot) as (rf & st2 & Hf & Hrest).
      destruct rf as [B|e]; [|by destruct Hrest].
      destruct Hrest as (invoked & _ & _ & Hok & _).
      destruct (Hok eq_refl) as [_ ->]. split; [done|]. simpl.
      by rewrite (flushPendingEntriesLocked_clears _ _ _ Hf). }
  rewrite compactLocked_unfold. by destruct (decide _).
Qed.

Lemma Compact_idempotent_witness :
  Compact (codec := StubCodec [])
    (Compact (codec := StubCodec []) state_two).2
  = (Ok tt, (Compact (codec := StubCodec []) state_two).2).
Proof.
  apply (Compact_idempotent (codec := StubCodec []) state_two).
  vm_compute. reflexivity.
Defined.

(** X15: a successful [Compact] of a non-empty index that is not already
    compact writes one block, the gzip form of the document of the pending
    entries followed by all the entries of the index, so that every entry of
    the index is in the block written; it then deletes the known blocks
    other than the one written, which becomes the only known block, and
    nothing is left pending. *)
Theorem Compact_writes_whole_index {S : Type} {bm : BlockManager S}
    {codec : Codec} (st st' : St S) :
  Compact st = (Ok tt, st') ->
  ~ already_compact (mgr st) ->
  entries (mgr st) <> ∅ ->
  let staged := pendingEntries (mgr st) ++ range_values (entries (mgr st)) in
  exists js buf B,
    json_Encode (mkManifest staged) = Ok js
    /\ gzip_Close js = Ok buf
    /\ (WriteBlock buf manifestBlockPrefix (store st)).1 = Ok B
    /\ (forall k e, entries (mgr st) !! k = Some e -> e ∈ staged)
    /\ calls st'
       = calls st ++ CallWriteBlock buf manifestBlockPrefix
           :: (CallDeleteBlock <$> filter (fun b => b <> B) (blockIDs (mgr st)))
    /\ blockIDs (mgr st') = [B]
    /\ pendingEntries (mgr st') = [].
Proof.
  unfold Compact. intros Hrun Hnot Hne.
  destruct (compactLocked_run _ _ _ Hrun Hnot) as (rf & st2 & Hf & Hrest).
  destruct rf as [B|e]; [|by destruct Hrest].
  destruct Hrest as (invoked & Hc & _ & Hok & _).
  destruct (Hok eq_refl) as [-> Hm].
  pose proof (flushPendingEntriesLocked_clears _ _ _ Hf) as Hclear.
  apply flushPendingEntriesLocked_exact in Hf.
  2:{ simpl. intros Hnil. apply app_eq_nil in Hnil as [_ Hnil].
      unfold range_values in Hnil. apply fmap_nil_inv in Hnil.
      by apply map_to_list_empty_iff in Hnil. }
  destruct Hf as [[_ (cause & H)]|(js & buf & s' & Hj & Hcl & Hw & ->)].
  { destruct H as [[_ [=]]|(js & _ & [[_ [=]]|[_ [=]]])]. }
  simpl in *. exists js, buf, B.
  split; [done|]. split; [done|]. split; [by rewrite Hw|].
  split.
  { intros k e Hk. apply elem_of_app. right.
    apply list_elem_of_fmap. exists (k, e). split; [done|].
    by apply elem_of_map_to_list. }
  rewrite filter_ne_snoc in Hc. rewrite Hc, <- app_assoc. simpl.
  split; [done|]. by rewrite Hm.
Qed.

Lemma Compact_writes_whole_index_witness :
  exists js buf B,
    json_Encode (Codec := StubCodec []) (mkManifest [entry_v1]) = Ok js
    /\ gzip_Close (Codec := StubCodec []) js = Ok buf
    /\ (WriteBlock buf manifestBlockPrefix (store state_two)).1 = Ok B
    /\ blockIDs (mgr (Compact (codec := StubCodec []) state_two).2) = [B].
Proof.
  destruct (Compact_writes_whole_index (codec := StubCodec []) state_two
              (Compact (codec := StubCodec []) state_two).2)
    as (js & buf & B & Hj & Hc & Hw & _ & _ & HB & _).
  - vm_compute. reflexivity.
  - intros [H _]. discriminate H.
  - intros H. apply (f_equal (fun m => m !! "ab")) in H.
    vm_compute in H. discriminate H.
  - exists js, buf, B. vm_compute in Hj. repeat split; assumption.
Defined.



(** ** More on loading *)

Section LoadMore.
Context {S : Type} {bm : BlockManager S} {codec : Codec}.
Implicit Types (st : St S).

Lemma loadManifestBlock_error_names blockID st e st' :
  loadManifestBlock blockID st = (Err e, st') -> names_block e blockID.
Proof.
  unfold loadManifestBlock, names_block. unfold_op.
  destruct (GetBlock blockID (store st)) as [[blk|e0] s']; simpl.
  - destruct (_ && _).
    + destruct (json_Unmarshal blk); intros ?; simplify_eq; eauto.
    + destruct (gzip_NewReader blk) as [gz|]; simpl;
        [destruct (json_Decode gz)|]; intros ?; simplify_eq; eauto.
  - intros ?; simplify_eq; eauto.
Qed.

Lemma loadEach_run ids :
  forall st rs st',
    loadEach ids st = (rs, st') ->
    calls st' = calls st ++ (CallGetBlock <$> ids)
    /\ length rs = length ids
    /\ forall e, e ∈ channel_errors rs ->
         exists id, id ∈ ids /\ names_block e id.
Proof.
  induction ids as [|id ids IH]; intros st rs st'; simpl.
  - intros ?; simplify_eq. rewrite app_nil_r. split; [done|]. split; [done|].
    by intros e ?%elem_of_nil.
  - destruct (loadManifestBlock id st) as [r st1] eqn:H1.
    destruct (loadEach ids st1) as [rs' st2] eqn:H2.
    intros ?; simplify_eq.
    apply IH in H2 as (Hc & Hlen & Herr).
    pose proof (loadManifestBlock_keeps _ _ _ _ H1) as [_ Hc1].
    split; [by rewrite Hc, Hc1, <- app_assoc|].
    split; [simpl; by rewrite Hlen|].
    intros e He. unfold channel_errors in He. simpl in He.
    destruct r as [man|e1].
    + destruct (Herr e He) as (id' & Hin & Hn). exists id'.
      split; [by right|done].
    + apply elem_of_cons in He as [->|He].
      * exists id. split; [by left|].
        by eapply loadManifestBlock_error_names.
      * destruct (Herr e He) as (id' & Hin & Hn). exists id'.
        split; [by right|done].
Qed.

Lemma channel_values_length {A} (rs : list (result A)) :
  channel_errors rs = [] -> length (channel_values rs) = length rs.
Proof.
  unfold channel_errors, channel_values.
  induction rs as [|[a|e] rs IH]; simpl; [done| |done].
  intros H. f_equal. by apply IH.
Qed.

Lemma loadManifestBlocks_Ok sched blocks st st' :
  loadManifestBlocks sched blocks st = (Ok tt, st') ->
  exists mans st1,
    loadBlocksInParallel sched blocks
      (mkSt (set_blockIDs (blockIDs (mgr st) ++ (BlockID <$> blocks)) (mgr st))
            (store st) (calls st)) = (Ok mans, st1)
    /\ st' = mkSt (mkManager
                     (removeDeleted (mergeManifests (entries (mgr st)) mans))
                     (blockIDs (mgr st) ++ (BlockID <$> blocks))
                     (pendingEntries (mgr st)))
                  (store st1) (calls st1).
Proof.
  unfold loadManifestBlocks. unfold_op.
  destruct (loadBlocksInParallel _ _ _) as [[mans|e] st1] eqn:H1;
    [|by intros [=]].
  pose proof (loadBlocksInParallel_keeps _ _ _ _ _ H1) as Hm.
  simpl in Hm. intros ?; simplify_eq.
  exists mans, st1. split; [done|]. simpl. by rewrite Hm.
Qed.

Lemma load_Ok sched st st' :
  load sched st = (Ok tt, st') ->
  exists st1 blocks s3 st4,
    Flush st = (Ok tt, st1)
    /\ ListBlocks manifestBlockPrefix (store st1) = (Ok blocks, s3)
    /\ loadManifestBlocks sched blocks
         (mkSt (set_entries ∅ (mgr st1)) s3
               (calls st1 ++ [CallListBlocks manifestBlockPrefix]))
       = (Ok tt, st4)
    /\ if (autoCompactionBlockCount <? length blocks)%nat then
         exists st5 s6,
           compactLocked st4 = (Ok tt, st5)
           /\ FlushBlocks (store st5) = (Ok tt, s6)
           /\ st' = mkSt (mgr st5) s6 (calls st5 ++ [CallFlush])
       else st' = st4.
Proof.
  unfold load. unfold bind at 1.
  destruct (Flush st) as [[[]|e] st1] eqn:Hfl; [|by intros [=]].
  unfold bind at 1. unfold modify at 1. cbv beta iota.
  unfold bind at 1, wrap at 1, call at 1. simpl.
  destruct (ListBlocks manifestBlockPrefix (store st1)) as [[blocks|e] s3]
    eqn:Hlist; [|by intros [=]].
  cbv beta iota. unfold bind at 1, wrap at 1.
  destruct (loadManifestBlocks sched blocks _) as [[[]|e] st4] eqn:Hl;
    [|by intros [=]].
  intros Hrun. exists st1, blocks, s3, st4.
  split; [done|]. split; [done|]. split; [exact Hl|].
  destruct (_ <? _)%nat.
  - revert Hrun. unfold bind, wrap.
    destruct (compactLocked st4) as [[[]|e] st5] eqn:Hc; [|by intros [=]].
    unfold call. destruct (FlushBlocks (store st5)) as [[[]|e] s6] eqn:Hfb;
      [|by intros [=]].
    intros ?; simplify_eq. by exists st5, s6.
  - unfold ret in Hrun. by simplify_eq.
Qed.
End LoadMore.

Lemma loadBlocksInParallel_run {S : Type}
    {bm : BlockManager S} {codec : Codec}
    (sched : list nat) (blocks : list Info) (st st' : St S)
    (r : result (list manifest)) :
  loadBlocksInParallel sched blocks st = (r, st') ->
  mgr st' = mgr st
  /\ (exists order,
        order ≡ₚ BlockID <$> blocks
        /\ calls st' = calls st ++ (CallGetBlock <$> order))
  /\ match r with
     | Ok mans => length mans = length blocks
     | Err e => exists id, id ∈ BlockID <$> blocks /\ names_block e id
     end.
Proof.
  intros Hrun. split; [by eapply loadBlocksInParallel_keeps|].
  revert Hrun. unfold loadBlocksInParallel.
  destruct (loadEach _ st) as [rs st1] eqn:H1.
  apply loadEach_run in H1 as (Hc & Hlen & Herr).
  pose proof (schedule_perm sched (BlockID <$> blocks)) as Hperm.
  destruct (channel_errors rs) as [|e0 errs] eqn:He; intros ?; simplify_eq.
  - split; [eauto|].
    rewrite channel_values_length, Hlen by done.
    by rewrite Hperm, length_fmap.
  - split; [eauto|].
    destruct (Herr e0) as (id & Hin & Hn); [by left|].
    exists id. split; [by rewrite <- Hperm|done].
Qed.

(** X17: [loadBlocksInParallel] fetches every listed block exactly once, in
    the order in which the workers get to them, and goes on fetching after a
    block has failed; it changes nothing in the manager; when it succeeds it
    returns one manifest for each block, and when it fails its error names
    one of the listed blocks. *)
Theorem loadBlocksInParallel_fetches_every_block {S : Type}
    {bm : BlockManager S} {codec : Codec}
    (sched : list nat) (blocks : list Info) (st st' : St S)
    (r : result (list manifest)) :
  loadBlocksInParallel sched blocks st = (r, st') ->
  mgr st' = mgr st
  /\ (exists order,
        order ≡ₚ BlockID <$> blocks
        /\ calls st' = calls st ++ (CallGetBlock <$> order))
  /\ match r with
     | Ok mans => length mans = length blocks
     | Err e => exists id, id ∈ BlockID <$> blocks /\ names_block e id
     end.
Proof. apply loadBlocksInParallel_run. Qed.

Lemma loadBlocksInParallel_fetches_every_block_witness :
  exists order,
    order ≡ₚ ["ma"; "mb"]
    /\ calls (loadBlocksInParallel (codec := StubCodec []) [1%nat]
                [mkInfo "ma" 2 0; mkInfo "mb" 6 0]
                (mem_state (mkManager ∅ [] []) corrupt_blocks None)).2
       = CallGetBlock <$> order.
Proof.
  destruct (loadBlocksInParallel_fetches_every_block (codec := StubCodec [])
              [1%nat] [mkInfo "ma" 2 0; mkInfo "mb" 6 0]
              (mem_state (mkManager ∅ [] []) corrupt_blocks None)
              (loadBlocksInParallel (codec := StubCodec []) [1%nat]
                 [mkInfo "ma" 2 0; mkInfo "mb" 6 0]
                 (mem_state (mkManager ∅ [] []) corrupt_blocks None)).2
              (loadBlocksInParallel (codec := StubCodec []) [1%nat]
                 [mkInfo "ma" 2 0; mkInfo "mb" 6 0]
                 (mem_state (mkManager ∅ [] []) corrupt_blocks None)).1)
    as (_ & (order & Hp & Hc) & _).
  - apply surjective_pairing.
  - exists order. split; [exact Hp | exact Hc].
Defined.

Section NewManagerMore.
Context {S : Type} {bm : BlockManager S} {codec : Codec}.
Implicit Types (st : St S).

Lemma Flush_nothing_pending st :
  pendingEntries (mgr st) = [] -> Flush st = (Ok tt, st).
Proof.
  intros Hp. unfold Flush, flushPendingEntriesLocked. unfold_op.
  rewrite Hp. simpl. reflexivity.
Qed.

(** A successful [NewManager], step by step. *)
Lemma NewManager_Ok sched (b : S) st' :
  NewManager sched b = (Ok tt, st') ->
  exists blocks s3 mans st1 order,
    ListBlocks manifestBlockPrefix b = (Ok blocks, s3)
    /\ order ≡ₚ BlockID <$> blocks
    /\ calls st1
       = CallListBlocks manifestBlockPrefix :: (CallGetBlock <$> order)
    /\ length mans = length blocks
    /\ let m4 := mkManager (removeDeleted (mergeManifests ∅ mans))
                           (BlockID <$> blocks) [] in
       if (autoCompactionBlockCount <? length blocks)%nat then
         exists st5 s6,
           compactLocked (mkSt m4 (store st1) (calls st1)) = (Ok tt, st5)
           /\ FlushBlocks (store st5) = (Ok tt, s6)
           /\ st' = mkSt (mgr st5) s6 (calls st5 ++ [CallFlush])
       else st' = mkSt m4 (store st1) (calls st1).
Proof.
  unfold NewManager. intros Hrun.
  apply load_Ok in Hrun as (st0 & blocks & s3 & st4 & Hfl & Hlist & Hl & Hrest).
  rewrite Flush_nothing_pending in Hfl by done. simplify_eq. simpl in *.
  apply loadManifestBlocks_Ok in Hl as (mans & st1 & Hpar & ->). simpl in *.
  apply loadBlocksInParallel_run in Hpar as (_ & (order & Hperm & Hc) & Hlen).
  simpl in Hc. exists blocks, s3, mans, st1, order.
  split; [done|]. split; [done|]. split; [done|]. split; [done|]. done.
Qed.
End NewManagerMore.

(** X18: after a successful [NewManager] nothing is pending.  When the block
    manager listed at most 16 blocks, the known blocks are the listed
    identifiers in the order of the listing, and the only calls made were the
    listing and one fetch for each block.  When it listed more than 16, the
    manager has compacted: exactly one block is known, and the last call
    made is the flush of the block manager. *)
Theorem NewManager_known_blocks {S : Type} {bm : BlockManager S}
    {codec : Codec} (sched : list nat) (b : S) (st' : St S)
    (blocks : list Info) (s3 : S) :
  NewManager sched b = (Ok tt, st') ->
  ListBlocks manifestBlockPrefix b = (Ok blocks, s3) ->
  pendingEntries (mgr st') = []
  /\ if (autoCompactionBlockCount <? length blocks)%nat then
       length (blockIDs (mgr st')) = 1%nat
       /\ last (calls st') = Some CallFlush
     else
       blockIDs (mgr st') = BlockID <$> blocks
       /\ exists order,
            order ≡ₚ BlockID <$> blocks
            /\ calls st'
               = CallListBlocks manifestBlockPrefix :: (CallGetBlock <$> order).
Proof.
  intros Hnew Hlist.
  apply NewManager_Ok in Hnew
    as (blocks' & s3' & mans & st1 & order & Hlist' & Hperm & Hc & Hlen & Hrest).
  rewrite Hlist in Hlist'. simplify_eq. simpl in Hrest.
  destruct (Nat.ltb_spec autoCompactionBlockCount (length blocks')) as [Hgt|Hle].
  - destruct Hrest as (st5 & s6 & Hcomp & _ & ->). simpl.
    rewrite last_snoc.
    assert (Hnot : ~ already_compact
                     (mgr (mkSt (mkManager
                                   (removeDeleted (mergeManifests ∅ mans))
                                   (BlockID <$> blocks') [])
                                (store st1) (calls st1)))).
    { intros [H _]. simpl in H. rewrite length_fmap in H.
      unfold autoCompactionBlockCount in Hgt. lia. }
    destruct (compactLocked_run _ _ _ Hcomp Hnot) as (rf & st2 & Hf & Hrun).
    destruct rf as [B|e]; [|by destruct Hrun].
    destruct Hrun as (invoked & _ & _ & Hok & _).
    destruct (Hok eq_refl) as [_ ->]. simpl.
    by rewrite (flushPendingEntriesLocked_clears _ _ _ Hf).
  - subst st'. simpl. split; [done|]. split; [done|]. eauto.
Qed.

Lemma NewManager_known_blocks_witness :
  length (blockIDs (mgr
    (NewManager (codec := StubCodec [(doc_ab, mkManifest [entry_v1])]) []
       (mkMem seventeen_blocks None)).2)) = 1%nat.
Proof.
  destruct (NewManager_known_blocks
              (codec := StubCodec [(doc_ab, mkManifest [entry_v1])]) []
              (mkMem seventeen_blocks None)
              (NewManager (codec := StubCodec [(doc_ab, mkManifest [entry_v1])])
                 [] (mkMem seventeen_blocks None)).2
              seventeen_infos (mkMem seventeen_blocks None)) as [_ H].
  - vm_compute. reflexivity.
  - vm_compute. reflexivity.
  - destruct H as [H _]. exact H.
Defined.

(** ** Invariants of a session *)

(** X19: in every state reached by a successful [NewManager] followed by
    public operations, each entry of the index is stored under its own
    identifier. *)
Theorem index_keys_are_ids {S : Type} {bm : BlockManager S} {codec : Codec}
    (st : St S) :
  reachable st -> keys_agree (entries (mgr st)).
Proof.
  induction 1 as [sched b st Hnew|o st Hreach IH|st b' cs Hreach IH].
  - assert (Hmerged : forall mans,
              keys_agree (removeDeleted (mergeManifests ∅ mans))).
    { intros mans. apply removeDeleted_keys_agree.
      rewrite mergeManifests_flat. apply mergeEntries_keys_agree.
      apply map_Forall_empty. }
    apply NewManager_Ok in Hnew
      as (blocks & s3 & mans & st1 & order & _ & _ & _ & _ & Hrest).
    simpl in Hrest. destruct (_ <? _)%nat.
    + destruct Hrest as (st5 & s6 & Hcomp & _ & ->). simpl.
      apply compactLocked_entries in Hcomp. rewrite Hcomp. apply Hmerged.
    + subst st. apply Hmerged.
  - destruct o as [labels env|id unmarshal|id|id|labels|id now| |]; simpl.
    + destruct (Put labels env st) as [r st'] eqn:Hrun. simpl.
      apply Put_run in Hrun as [[_ ->]|(e & _ & _ & ->)]; [done|].
      simpl. by apply map_Forall_insert_2.
    + destruct (Get id unmarshal st) as [r st'] eqn:Hrun.
      by apply Get_keeps in Hrun as ->.
    + destruct (GetMetadata id st) as [r st'] eqn:Hrun.
      by apply GetMetadata_keeps in Hrun as ->.
    + destruct (GetRaw id st) as [r st'] eqn:Hrun.
      by apply GetRaw_keeps in Hrun as ->.
    + done.
    + unfold Delete. unfold_op.
      destruct (entries (mgr st) !! id); simpl; [|done].
      by apply map_Forall_delete.
    + destruct (Flush st) as [r st'] eqn:Hrun.
      apply Flush_run in Hrun as [He _]. simpl. by rewrite He.
    + destruct (Compact st) as [r st'] eqn:Hrun.
      apply compactLocked_entries in Hrun. simpl. by rewrite Hrun.
  - done.
Qed.

Lemma index_keys_are_ids_witness :
  keys_agree
    (entries (mgr
       (run_op (codec := StubCodec []) (OpPut {[ "type" := "snap" ]} put_env)
          (NewManager (codec := StubCodec []) [] (mkMem [] None)).2))).
Proof.
  apply (index_keys_are_ids (codec := StubCodec [])).
  apply reachable_op.
  apply (reachable_new (codec := StubCodec []) [] (mkMem [] None)).
  vm_compute. reflexivity.
Defined.

Section Replay.
Implicit Types (idx : gmap string manifestEntry) (e : manifestEntry).

Lemma mergeEntries_newer es e :
  Forall (fun p => ModTime p < ModTime e) es ->
  mergeEntries ∅ (es ++ [e]) = <[ID e := e]> (mergeEntries ∅ es).
Proof.
  intros Hold. rewrite mergeEntries_snoc. unfold mergeEntry, time_After.
  pose proof (mergeEntries_lookup_max es ∅ (ID e)) as H.
  destruct (mergeEntries ∅ es !! ID e) as [w|]; [|done].
  destruct H as ([Hw|[Hin _]] & _); [by rewrite lookup_empty in Hw|].
  rewrite Forall_forall in Hold. specialize (Hold w Hin).
  destruct (Z.ltb_spec (ModTime w) (ModTime e)); [done|lia].
Qed.

Lemma removeDeleted_insert idx k e :
  removeDeleted (<[k := e]> idx) =
    if Deleted e then delete k (removeDeleted idx)
    else <[k := e]> (removeDeleted idx).
Proof.
  apply map_eq. intros j. rewrite removeDeleted_lookup.
  destruct (decide (k = j)) as [<-|Hj].
  - rewrite lookup_insert_eq.
    destruct (Deleted e); by rewrite ?lookup_delete_eq, ?lookup_insert_eq.
  - rewrite lookup_insert_ne by done.
    destruct (Deleted e);
      by rewrite ?lookup_delete_ne, ?lookup_insert_ne, ?removeDeleted_lookup.
Qed.
End Replay.

(** X20: as long as the clock moves forward, the index stays what a reload
    of the pending entries would give.  If the index of a manager is the
    merge of its pending entries with the tombstones removed, and every
    pending entry is older than the time [t] of the call, then the same
    holds after a successful [Put] at [t] and after a [Delete] at [t]. *)
Theorem session_replays_pending {S : Type} (st : St S) (t : Time) :
  replays_pending (mgr st) ->
  pending_before t (mgr st) ->
  (forall labels env id st',
     time_Now env = t ->
     Put labels env st = (Ok id, st') ->
     replays_pending (mgr st')
     /\ forall t', t < t' -> pending_before t' (mgr st'))
  /\ (forall id,
        replays_pending (mgr (Delete id t st).2)
        /\ forall t', t < t' -> pending_before t' (mgr (Delete id t st).2)).
Proof.
  unfold replays_pending, pending_before. intros Hrep Hold. split.
  - intros labels env id st' Ht Hput.
    apply Put_success in Hput as (random & b & _ & _ & _ & _ & ->). simpl.
    split.
    + rewrite (mergeEntries_newer _ (mkEntry id _ labels false b))
        by (simpl; by rewrite Ht).
      simpl. rewrite removeDeleted_insert. simpl. by rewrite Hrep.
    + intros t' Hlt. apply Forall_app. split.
      * eapply Forall_impl; [exact Hold|]. simpl. intros; lia.
      * repeat constructor. simpl. lia.
  - intros id. unfold Delete. unfold_op.
    destruct (entries (mgr st) !! id) as [e0|] eqn:He; simpl.
    + split.
      * rewrite (mergeEntries_newer _ (mkEntry id t ∅ true [])) by done.
        simpl. rewrite removeDeleted_insert. simpl. by rewrite Hrep.
      * intros t' Hlt. apply Forall_app. split.
        -- eapply Forall_impl; [exact Hold|]. simpl. intros; lia.
        -- repeat constructor. simpl. lia.
    + split; [done|]. intros t' Hlt.
      eapply Forall_impl; [exact Hold|]. simpl. intros; lia.
Qed.

Lemma session_replays_pending_witness :
  replays_pending (mgr (Delete "ab" 50 (mem_state manager_pending [] None)).2).
Proof.
  destruct (session_replays_pending (mem_state manager_pending [] None) 50)
    as [_ H].
  - vm_compute. reflexivity.
  - repeat constructor.
  - apply (H "ab").
Defined.

(** ** Reopening *)

Section Reopen.
Context {S : Type} {bm : BlockManager S} {codec : Codec}.
Implicit Types (st : St S).

Lemma schedule_singleton {A} (picks : list nat) (x : A) :
  schedule picks [x] = [x].
Proof.
  destruct picks as [|k picks]; [done|].
  cbn [schedule length]. rewrite Nat.mod_1_r. simpl. by destruct picks.
Qed.

(** [NewManager] on a store that lists one block, in gzip form. *)
Lemma NewManager_single_block sched (b b1 b2 : S) info buf gz es :
  ListBlocks manifestBlockPrefix b = (Ok [info], b1) ->
  GetBlock (BlockID info) b1 = (Ok buf, b2) ->
  uncompressed_format buf = false ->
  gzip_NewReader buf = Ok gz ->
  json_Decode gz = Ok (mkManifest es) ->
  NewManager sched b
  = (Ok tt,
     mkSt (mkManager (removeDeleted (mergeEntries ∅ es)) [BlockID info] [])
          b2
          [CallListBlocks manifestBlockPrefix; CallGetBlock (BlockID info)]).
Proof.
  intros Hlist Hget Hfmt Hgz Hdec.
  unfold NewManager, load. unfold bind at 1.
  rewrite Flush_nothing_pending by done.
  unfold bind at 1. unfold modify at 1. cbv beta iota.
  unfold bind at 1, wrap at 1, call at 1. simpl. rewrite Hlist.
  cbv beta iota. unfold bind at 1, wrap at 1.
  unfold loadManifestBlocks. unfold bind at 1. unfold modify at 1.
  cbv beta iota. unfold bind at 1. unfold loadBlocksInParallel.
  simpl. rewrite schedule_singleton. simpl.
  unfold loadManifestBlock. unfold bind at 1, wrap at 1, call at 1. simpl.
  rewrite Hget. cbv beta iota. fold (uncompressed_format buf). rewrite Hfmt.
  unfold bind, wrap, liftR. rewrite Hgz, Hdec. simpl. reflexivity.
Qed.
End Reopen.

(** X21: what was flushed is what a reopening finds.  Take a manager whose
    index is the replay of its pending entries, and flush them; suppose the
    codec reads back as gzip the document it wrote, and the store then lists
    the block written, alone, and returns its bytes.  Then [NewManager] on
    that store succeeds, with the index the first manager had, with that
    block as its only known block and with nothing pending. *)
Theorem flush_then_reopen {S : Type} {bm : BlockManager S} {codec : Codec}
    (st st1 : St S) (sched : list nat) :
  replays_pending (mgr st) ->
  pendingEntries (mgr st) <> [] ->
  Flush st = (Ok tt, st1) ->
  (forall js buf,
     json_Encode (mkManifest (pendingEntries (mgr st))) = Ok js ->
     gzip_Close js = Ok buf ->
     uncompressed_format buf = false
     /\ exists gz, gzip_NewReader buf = Ok gz
          /\ json_Decode gz = Ok (mkManifest (pendingEntries (mgr st)))) ->
  (forall buf id,
     WriteBlock buf manifestBlockPrefix (store st) = (Ok id, store st1) ->
     exists len ts b1 b2,
       ListBlocks manifestBlockPrefix (store st1) = (Ok [mkInfo id len ts], b1)
       /\ GetBlock id b1 = (Ok buf, b2)) ->
  exists st' id,
    NewManager sched (store st1) = (Ok tt, st')
    /\ entries (mgr st') = entries (mgr st1)
    /\ blockIDs (mgr st') = [id]
    /\ last (blockIDs (mgr st1)) = Some id
    /\ pendingEntries (mgr st') = [].
Proof.
  intros Hrep Hp Hflush Hcodec Hstore.
  pose proof (Flush_run _ _ _ Hflush) as [He _].
  revert Hflush. unfold Flush, bind.
  destruct (flushPendingEntriesLocked st) as [r0 st0] eqn:Hf.
  apply flushPendingEntriesLocked_exact in Hf; [|done].
  destruct Hf as [[-> (cause & H)]|(js & buf & s' & Hj & Hc & Hw & ->)].
  { destruct H as [[_ ->]|(js & _ & [[_ ->]|[_ ->]])]; intros [=]. }
  destruct r0 as [id|e]; [|intros [=]].
  destruct (WriteBlock_prefix _ _ _ _ _ Hw) as [h ->].
  destruct (decide _) as [Heq|_]; [discriminate Heq|].
  unfold modify. intros Hst1. simplify_eq. simpl in *.
  destruct (Hcodec js buf Hj Hc) as (Hfmt & gz & Hgz & Hdec).
  destruct (Hstore buf _ Hw) as (len & ts & b1 & b2 & Hlist & Hget).
  eexists _, _. split.
  { eapply (NewManager_single_block sched _ b1 b2 (mkInfo _ len ts));
      [exact Hlist|exact Hget|exact Hfmt|exact Hgz|exact Hdec]. }
  simpl. split; [by rewrite Hrep|]. split; [done|].
  split; [by rewrite last_snoc|done].
Qed.

Lemma flush_then_reopen_witness :
  exists st' id,
    NewManager (codec := StubCodec [(doc_ab, mkManifest [entry_v1])]) []
      (store (Flush (codec := StubCodec [(doc_ab, mkManifest [entry_v1])])
                (mem_state manager_pending [] None)).2)
    = (Ok tt, st')
    /\ entries (mgr st') = entries manager_pending
    /\ blockIDs (mgr st') = [id].
Proof.
  destruct (flush_then_reopen
              (codec := StubCodec [(doc_ab, mkManifest [entry_v1])])
              (mem_state manager_pending [] None)
              (Flush (codec := StubCodec [(doc_ab, mkManifest [entry_v1])])
                 (mem_state manager_pending [] None)).2 [])
    as (st' & id & Hnew & He & Hids & _).
  - vm_compute. reflexivity.
  - discriminate.
  - vm_compute. reflexivity.
  - intros js buf Hj Hc. vm_compute in Hj. injection Hj as <-.
    vm_compute in Hc. injection Hc as <-.
    split; [reflexivity|]. eexists. split; vm_compute; reflexivity.
  - intros buf id Hw.
    assert (Hst : store (Flush
                (codec := StubCodec [(doc_ab, mkManifest [entry_v1])])
                (mem_state manager_pending [] None)).2
              = mkMem [(block_ab, "031"%byte :: "139"%byte :: doc_ab)] None)
      by (vm_compute; reflexivity).
    rewrite Hst in *. clear Hst.
    unfold WriteBlock, MemStore_BlockManager, mem_WriteBlock, mem_tick in Hw.
    cbn [store mem_state mem_budget mem_blocks mem_find app] in Hw.
    injection Hw as Hid Hkey Hbuf. subst id buf.
    eexists _, _, _, _. split; vm_compute; reflexivity.
  - exists st', id. split; [exact Hnew|]. split; [|exact Hids].
    rewrite He. vm_compute. reflexivity.
Defined.

(** ** More on Find *)

(** X22: a query is matched by every label map that contains all its pairs;
    and for a query none of whose values is empty, being matched is the same
    as being contained. *)
Theorem matchesLabels_submap (a Q : gmap string string) :
  (Q ⊆ a -> matchesLabels a Q = true)
  /\ ((forall k, Q !! k <> Some "") -> (matchesLabels a Q = true <-> Q ⊆ a)).
Proof.
  assert (Hsub : Q ⊆ a -> matchesLabels a Q = true).
  { intros H. apply matchesLabels_spec. intros k v Hk.
    unfold label_at. by rewrite (lookup_weaken _ _ _ _ Hk H). }
  split; [exact Hsub|]. intros Hne. split; [|exact Hsub].
  intros Hm. apply map_subseteq_spec. intros k v Hk.
  pose proof (proj1 (matchesLabels_spec a Q) Hm k v Hk) as Hl.
  unfold label_at in Hl. destruct (a !! k) as [w|]; simpl in Hl.
  - by subst w.
  - subst v. by destruct (Hne k).
Qed.

Section FindMore.
Lemma keys_agree_ids (idx : gmap string manifestEntry) :
  keys_agree idx -> ID <$> range_values idx = (map_to_list idx).*1.
Proof.
  intros H. unfold range_values. rewrite <- list_fmap_compose.
  apply list_fmap_ext. intros i [k e] Hi. simpl.
  apply list_elem_of_lookup_2, elem_of_map_to_list in Hi. by apply H.
Qed.

Lemma NoDup_fmap_filter {A B} (f : A -> B) (P : A -> Prop)
    `{!forall x, Decision (P x)} (l : list A) :
  NoDup (f <$> l) -> NoDup (f <$> filter P l).
Proof.
  induction l as [|x l IH]; simpl; [done|].
  rewrite NoDup_cons. intros [Hx Hl].
  destruct (decide (P x)).
  - rewrite filter_cons_True by done. simpl. apply NoDup_cons.
    split; [|by apply IH].
    intros Hin. apply Hx. apply list_elem_of_fmap in Hin as (y & -> & Hy).
    apply list_elem_of_filter in Hy as [_ Hy].
    by apply list_elem_of_fmap_2.
  - rewrite filter_cons_False by done. by apply IH.
Qed.

Lemma filter_all {A} (P : A -> Prop) `{!forall x, Decision (P x)}
    (l : list A) :
  (forall x, P x) -> filter P l = l.
Proof.
  intros Hall. induction l as [|x l IH]; [done|].
  rewrite filter_cons_True by done. by rewrite IH.
Qed.
End FindMore.

(** X23: on an index whose entries are stored under their own identifiers,
    [Find] returns no identifier twice; and with the empty query it returns
    as many items as the index has entries. *)
Theorem Find_distinct_ids (m : Manager) (Q : gmap string string) :
  keys_agree (entries m) ->
  NoDup (md_ID <$> Find m Q)
  /\ length (Find m ∅) = size (entries m).
Proof.
  intros Hkeys. split.
  - unfold Find. rewrite sort_Slice_perm, <- list_fmap_compose.
    change (md_ID ∘ cloneEntryMetadata) with ID.
    apply NoDup_fmap_filter. rewrite keys_agree_ids by done.
    apply NoDup_fst_map_to_list.
  - unfold Find. rewrite sort_Slice_perm, length_fmap.
    rewrite filter_all.
    + unfold range_values. by rewrite length_fmap, length_map_to_list.
    + intros e. apply matchesLabels_spec. intros k v. by rewrite lookup_empty.
Qed.

Lemma Find_distinct_ids_witness :
  NoDup (md_ID <$> Find manager_one {[ "type" := "snap" ]}).
Proof.
  apply (Find_distinct_ids manager_one {[ "type" := "snap" ]}).
  intros k e. simpl. intros [<- <-]%lookup_singleton_Some. reflexivity.
Defined.

(** ** The command-line callers *)


Section IndexShow.
Lemma insert_by_no_inversion {A} (less : A -> A -> bool) (x : A) (l : list A) :
  (forall a b, less a b = true -> less b a = false) ->
  Sorted (no_inversion less) l -> Sorted (no_inversion less) (insert_by less x l).
Proof.
  intros Hasym. induction 1 as [|y l Hs IH Hhd]; simpl.
  - repeat constructor.
  - destruct (less y x) eqn:Hyx.
    + constructor; [done|].
      destruct l as [|z l]; simpl in *.
      * constructor. by apply Hasym.
      * destruct (less z x).
        -- constructor. by inversion Hhd.
        -- constructor. by apply Hasym.
    + constructor; [by constructor|]. by constructor.
Qed.

Lemma sort_Slice_no_inversion {A} (less : A -> A -> bool) (l : list A) :
  (forall a b, less a b = true -> less b a = false) ->
  Sorted (no_inversion less) (sort_Slice less l).
Proof.
  intros Hasym. induction l as [|x l IH]; simpl; [constructor|].
  by apply insert_by_no_inversion.
Qed.

Lemma String_ltb_asym (a b : string) :
  String.ltb a b = true -> String.ltb b a = false.
Proof.
  unfold String.ltb. rewrite (String.compare_antisym b a).
  by destruct (String.compare a b).
Qed.

Lemma sortIndexBlocks_perm mode lines : sortIndexBlocks mode lines ≡ₚ lines.
Proof.
  unfold sortIndexBlocks.
  repeat (destruct (decide _)); try apply sort_Slice_perm. done.
Qed.
End IndexShow.

(** X25: [sortIndexBlocks] only rearranges the lines.  With [--sort=offset]
    and [--sort=size] they come out in ascending order of offset and of
    size; with [--sort=blockID] no line is followed by a line whose block
    identifier is smaller; with any other value they are left as they
    were. *)
Theorem sortIndexBlocks_sorted (mode : string)
    (lines : list blockIndexEntryInfo) :
  sortIndexBlocks mode lines ≡ₚ lines
  /\ (mode = "offset" ->
      StronglySorted (le_by bi_offset) (sortIndexBlocks mode lines))
  /\ (mode = "size" ->
      StronglySorted (le_by bi_size) (sortIndexBlocks mode lines))
  /\ (mode = "blockID" ->
      Sorted (no_inversion
                (fun a b => String.ltb (bi_blockID a) (bi_blockID b)))
             (sortIndexBlocks mode lines))
  /\ (mode <> "offset" -> mode <> "blockID" -> mode <> "size" ->
      sortIndexBlocks mode lines = lines).
Proof.
  split; [apply sortIndexBlocks_perm|]. unfold sortIndexBlocks.
  split; [|split; [|split]].
  - intros ->. simpl. by apply (sort_Slice_sorted _ bi_offset).
  - intros ->. simpl. by apply (sort_Slice_sorted _ bi_size).
  - intros ->. simpl. apply sort_Slice_no_inversion.
    intros a b. apply String_ltb_asym.
  - intros H1 H2 H3. by repeat (destruct (decide _)).
Qed.

(** X26: the line that [printIndexV1] makes of an item splits its packed
    64-bit value into two 32-bit halves that put together give the value
    back: offset times 2^32 plus size. *)
Theorem item_line_recomposes (blk : string) (os : Z) :
  0 <= os < 2 ^ 64 ->
  bi_offset (item_line blk os) * 2 ^ 32 + bi_size (item_line blk os) = os
  /\ 0 <= bi_offset (item_line blk os) < 2 ^ 32
  /\ 0 <= bi_size (item_line blk os) < 2 ^ 32
  /\ bi_blockID (item_line blk os) = blk
  /\ bi_inline (item_line blk os) = false.
Proof.
  intros Hos. unfold item_line, uint32. simpl.
  rewrite Z.shiftr_div_pow2 by lia.
  assert (0 <= os / 2 ^ 32 < 2 ^ 32).
  { split; [apply Z.div_pos; lia|].
    apply Z.div_lt_upper_bound; [lia|]. change (2 ^ 32 * 2 ^ 32) with (2 ^ 64).
    lia. }
  rewrite (Z.mod_small (os / 2 ^ 32)) by done.
  pose proof (Z.mod_pos_bound os (2 ^ 32) ltac:(lia)).
  pose proof (Z.div_mod os (2 ^ 32) ltac:(lia)).
  repeat split; lia.
Qed.

Lemma item_line_recomposes_witness :
  bi_offset (item_line "p" (3 * 2 ^ 32 + 7)) * 2 ^ 32
  + bi_size (item_line "p" (3 * 2 ^ 32 + 7)) = 3 * 2 ^ 32 + 7.
Proof.
  apply (item_line_recomposes "p" (3 * 2 ^ 32 + 7)). lia.
Defined.

(** X27: the lines printed for an index are exactly one line for each item
    and one for each inline item, the latter with offset 0 and marked
    inline, whatever the sort order. *)
Theorem index_lines_cover (mode : string) (items : gmap string Z)
    (inlineItems : gmap string (list byte)) :
  length (index_lines mode items inlineItems)
  = (size items + size inlineItems)%nat
  /\ forall l,
       l ∈ index_lines mode items inlineItems <->
       (exists blk os, items !! blk = Some os /\ l = item_line blk os)
       \/ (exists blk d,
             inlineItems !! blk = Some d
             /\ l = mkLine blk 0 (uint32 (Z.of_nat (length d))) true).
Proof.
  unfold index_lines. split.
  - rewrite sortIndexBlocks_perm, length_app, !length_fmap.
    by rewrite !length_map_to_list.
  - intros l. rewrite sortIndexBlocks_perm, elem_of_app, !list_elem_of_fmap.
    split.
    + intros [([blk os] & -> & Hin)|([blk d] & -> & Hin)];
        apply elem_of_map_to_list in Hin; [left|right]; eauto.
    + intros [(blk & os & Hin & ->)|(blk & d & Hin & ->)];
        [left; exists (blk, os)|right; exists (blk, d)];
        (split; [done|by apply elem_of_map_to_list]).
Qed.

(** ** Failures of NewManager *)

(** X28: a failing [NewManager] says where it failed: the listing of the
    blocks; the loading of the blocks, and then the error inside names one
    of the blocks that were listed; or the automatic compaction, which is
    attempted only when more than 16 blocks were listed. *)
Theorem NewManager_failure {S : Type} {bm : BlockManager S} {codec : Codec}
    (sched : list nat) (b : S) (e : error) (st' : St S) :
  NewManager sched b = (Err e, st') ->
  (exists cause,
     (ListBlocks manifestBlockPrefix b).1 = Err cause
     /\ e = Errorf "unable to list manifest blocks: %v" [] cause)
  \/ exists blocks,
       (ListBlocks manifestBlockPrefix b).1 = Ok blocks
       /\ ((exists cause id,
              e = Errorf "unable to load manifest blocks: %v" [] cause
              /\ id ∈ BlockID <$> blocks /\ names_block cause id)
           \/ (auto_compaction_error e
               /\ (autoCompactionBlockCount < length blocks)%nat)).
Proof.
  unfold NewManager, load. unfold bind at 1.
  rewrite Flush_nothing_pending by done.
  unfold bind at 1. unfold modify at 1. cbv beta iota.
  unfold bind at 1, wrap at 1, call at 1. simpl.
  destruct (ListBlocks manifestBlockPrefix b) as [[blocks|e0] s3]; simpl.
  2:{ intros ?; simplify_eq. left. eauto. }
  intros Hrun. right. exists blocks. split; [done|]. revert Hrun.
  unfold bind at 1, wrap at 1.
  unfold loadManifestBlocks. unfold bind at 1. unfold modify at 1.
  cbv beta iota. unfold bind at 1.
  destruct (loadBlocksInParallel sched blocks _) as [[mans|e1] st1] eqn:Hpar.
  2:{ intros ?; simplify_eq. left.
      apply loadBlocksInParallel_run in Hpar as (_ & _ & id & Hin & Hn).
      exists e1, id. done. }
  unfold modify, bind. cbv beta iota.
  destruct (Nat.ltb_spec autoCompactionBlockCount (length blocks)) as [Hgt|Hle].
  2:{ unfold ret. intros [=]. }
  unfold wrap.
  destruct (compactLocked _) as [[[]|e2] st5].
  - unfold call. destruct (FlushBlocks (store st5)) as [[[]|e3] s6];
      intros ?; simplify_eq.
    right. split; [|done]. exists e3. by right.
  - intros ?; simplify_eq. right. split; [|done]. exists e2. by left.
Qed.

Lemma NewManager_failure_witness :
  exists cause id,
    (NewManager (codec := StubCodec []) [] (mkMem corrupt_blocks None)).1
    = Err (Errorf "unable to load manifest blocks: %v" [] cause)
    /\ names_block cause id.
Proof.
  destruct (NewManager_failure (codec := StubCodec []) []
              (mkMem corrupt_blocks None)
              (Errorf "unable to load manifest blocks: %v" []
                 (Errorf "unable to unpack block %q: %v" ["ma"]
                    (ErrExternal "gzip: invalid header")))
              (NewManager (codec := StubCodec []) []
                 (mkMem corrupt_blocks None)).2)
    as [(cause & H & _)|(blocks & _ & [(cause & id & He & _ & Hn)|[_ Hlen]])].
  - vm_compute. reflexivity.
  - vm_compute in H. discriminate H.
  - exists cause, id. injection He as <-. split; [|exact Hn].
    vm_compute. reflexivity.
  - exists (Errorf "unable to unpack block %q: %v" ["ma"]
              (ErrExternal "gzip: invalid header")), "ma".
    split; [vm_compute; reflexivity|]. by eexists _, _.
Defined.
